(** * contraplay: playlists, fuzzy song equality, intersection, lyric cache

    A shallow embedding of [src/parser.py] and of the pieces of the Python
    runtime it leans on ([str] methods, [int()], [difflib.SequenceMatcher]),
    followed by the properties of the program that the specification states.

    Conventions.
    - A Python [str] is a list of Unicode code points ([list N]).  The
      character tables ([isspace], [isalnum], [lower]) are written out for
      U+0000..U+017F (Basic Latin, Latin-1 Supplement, Latin Extended-A);
      every other code point is taken as a caseless symbol that is neither a
      space nor a word character, which is what combining marks, typographic
      punctuation and emoji are.
    - A Python [int] is a [Z]; positions in a sequence are [nat].
    - A Python [float] is a binary64 [float] of the kernel, so that the
      comparison [ratio() >= 0.8] is the one the interpreter performs.
    - A [dict] is a [gmap]; a raised exception is the [Raise] case of
      [result]. *)

From Stdlib Require Import ZArith NArith Floats Uint63 Ascii String Sorted.
From Stdlib Require DecimalString.
From stdpp Require Import gmap list sorting.
From Equations Require Import Equations.

Local Open Scope nat_scope.

(** ** The Python runtime *)

Module Py.

Definition codepoint := N.
Bind Scope N_scope with codepoint.

(** [str]: an immutable sequence of code points. *)
Abbreviation str := (list codepoint).

(** A literal of ASCII characters, read as a [str]. *)
Definition lit (s : string) : str :=
  map N_of_ascii (list_ascii_of_string s).

Definition in_range (lo hi c : codepoint) : bool :=
  ((lo <=? c) && (c <=? hi))%N.

Definition in_ranges (rs : list (codepoint * codepoint)) (c : codepoint) : bool :=
  existsb (fun r => in_range r.1 r.2 c) rs.

(** [str.isspace] on one character; also [\s] of [re] and the set that
    [str.strip()] removes. *)
Definition isspace (c : codepoint) : bool :=
  in_ranges [(0x09, 0x0d); (0x1c, 0x20); (0x85, 0x85); (0xa0, 0xa0)]%N c.

(** [str.isalnum] on one character. *)
Definition isalnum (c : codepoint) : bool :=
  in_ranges [(0x30, 0x39); (0x41, 0x5a); (0x61, 0x7a); (0xaa, 0xaa);
             (0xb2, 0xb3); (0xb5, 0xb5); (0xb9, 0xba); (0xbc, 0xbe);
             (0xc0, 0xd6); (0xd8, 0xf6); (0xf8, 0x17f)]%N c.

(** [\w] of [re] on a [str] pattern: alphanumeric or underscore. *)
Definition isword (c : codepoint) : bool :=
  isalnum c || (c =? 0x5f)%N.

(** The lowercase form of one character.  U+0130 is the one character
    whose lowercase form is two code points long. *)
Definition lower_cp (c : codepoint) : list codepoint :=
  if in_range 0x41 0x5a c then [c + 32]%N
  else if in_range 0xc0 0xde c && negb (c =? 0xd7)%N then [c + 32]%N
  else if (c =? 0x130)%N then [0x69; 0x307]%N
  else if (c =? 0x178)%N then [0xff]%N
  else if in_ranges [(0x100, 0x12f); (0x132, 0x137); (0x14a, 0x177)]%N c
          && N.even c then [c + 1]%N
  else if in_ranges [(0x139, 0x148); (0x179, 0x17e)]%N c
          && N.odd c then [c + 1]%N
  else [c].

(** [str.lower()] *)
Definition lower (s : str) : str := flat_map lower_cp s.

(** [str.lstrip()], [str.strip()] with no argument. *)
Fixpoint lstrip (s : str) : str :=
  match s with
  | c :: s' => if isspace c then lstrip s' else s
  | [] => []
  end.

Definition rstrip (s : str) : str := rev (lstrip (rev s)).

Definition strip (s : str) : str := rstrip (lstrip s).

(** [str.replace(old, new)] for one-character [old] and [new]. *)
Definition replace (old new : codepoint) (s : str) : str :=
  map (fun c => if (c =? old)%N then new else c) s.

(** [str.split(sep)] for a one-character separator: the pieces between
    the occurrences of [sep], empty pieces included. *)
Fixpoint split (sep : codepoint) (s : str) : list str :=
  match s with
  | [] => [[]]
  | c :: s' =>
      if (c =? sep)%N then [] :: split sep s'
      else match split sep s' with
           | piece :: pieces => (c :: piece) :: pieces
           | [] => [[c]]
           end
  end.

(** Exceptions the program can meet.  A [ValueError] carries the text of
    its message and the values formatted after it; [Exception] stands for
    any other subclass of [Exception]. *)
Inductive exn :=
| ValueError (message : str) (values : list str)
| FileNotFoundError (path : str)
| Exception (message : str).

Inductive result (A : Type) :=
| Ok (a : A)
| Raise (e : exn).
Arguments Ok {A} a.
Arguments Raise {A} e.

Definition bind {A B} (r : result A) (k : A -> result B) : result B :=
  match r with
  | Ok a => k a
  | Raise e => Raise e
  end.

(** *** [int(s)] in base 10 *)

(** The white space [int] skips around the number: the ASCII set of C,
    and the non-ASCII Unicode spaces, which are first turned into blanks. *)
Definition int_space (c : codepoint) : bool :=
  in_ranges [(0x09, 0x0d); (0x20, 0x20); (0x85, 0x85); (0xa0, 0xa0)]%N c.

Definition isdecimal (c : codepoint) : bool := in_range 0x30 0x39 c.

Definition digit_value (c : codepoint) : Z := Z.of_N (c - 0x30).

(** [sys.int_info.default_max_str_digits] *)
Definition int_max_str_digits : nat := 4300.

(** The digits of the literal, single underscores allowed between two
    digits: the value read, the number of digits, and what follows. *)
Fixpoint scan_digits (s : str) (acc : Z) (ndigits : nat) (after_digit : bool)
  : option (Z * nat * str) :=
  match s with
  | [] => if after_digit then Some (acc, ndigits, []) else None
  | c :: s' =>
      if isdecimal c then
        scan_digits s' (10 * acc + digit_value c)%Z (S ndigits) true
      else if (c =? 0x5f)%N then
        if after_digit then scan_digits s' acc ndigits false else None
      else if after_digit then Some (acc, ndigits, s) else None
  end.

Fixpoint skip_int_space (s : str) : str :=
  match s with
  | c :: s' => if int_space c then skip_int_space s' else s
  | [] => []
  end.

Definition invalid_literal (s : str) : exn :=
  ValueError (lit "invalid literal for int() with base 10: ") [s].

(** The optional sign in front of the digits. *)
Definition read_sign (s : str) : Z * str :=
  match s with
  | c :: s' =>
      if (c =? 0x2b)%N then (1%Z, s')
      else if (c =? 0x2d)%N then ((-1)%Z, s')
      else (1%Z, s)
  | [] => (1%Z, s)
  end.

Definition int (s : str) : result Z :=
  let '(sign, s2) := read_sign (skip_int_space s) in
  match scan_digits s2 0%Z 0 false with
  | Some (v, ndigits, rest) =>
      match skip_int_space rest with
      | [] =>
          if int_max_str_digits <? ndigits
          then Raise (ValueError (lit "Exceeds the limit (4300 digits) for integer string conversion") [])
          else Ok (sign * v)%Z
      | _ :: _ => Raise (invalid_literal s)
      end
  | None => Raise (invalid_literal s)
  end.

End Py.

(** ** [difflib.SequenceMatcher(None, a, b)] *)

Module Difflib.
Import Py.

(** A matching block [(i, j, k)]: [a[i:i+k] == b[j:j+k]]. *)
Definition Match : Type := nat * nat * nat.

Definition size (m : Match) : nat := m.2.

(** Constructor defaults: [isjunk=None], [autojunk=True]. *)
Definition autojunk : bool := true.

(** With [isjunk=None] no element is junk. *)
Definition bjunk : gset codepoint := ∅.

Definition isbjunk (elt : codepoint) : bool := bool_decide (elt ∈ bjunk).

(** [__chain_b]: for each element of [b] the increasing list of its
    positions; when [b] has 200 elements or more, the elements occurring
    more than [n // 100 + 1] times ("popular") are deleted. *)
Definition chain_b (b : str) : gmap codepoint (list nat) :=
  let b2j :=
    fold_left
      (fun (m : gmap codepoint (list nat)) '(i, elt) =>
         <[elt := default [] (m !! elt) ++ [i]]> m)
      (imap pair b) ∅ in
  let n := length b in
  if autojunk && (200 <=? n) then
    let ntest := n / 100 + 1 in
    omap (fun idxs => if ntest <? length idxs then None else Some idxs) b2j
  else b2j.

Section find_longest_match.
Variables (a b : str) (b2j : gmap codepoint (list nat)).
Variables (alo ahi blo bhi : nat).

(** [j2len.get(j-1, 0)] *)
Definition j2lenget (j2len : gmap nat nat) (j : nat) : nat :=
  match j with
  | 0 => 0
  | S j' => default 0 (j2len !! j')
  end.

(** The loop over the positions [j] of [a[i]] in [b]: [continue] below
    [blo], [break] from [bhi] on. *)
Fixpoint scan_positions (i : nat) (j2len : gmap nat nat) (js : list nat)
    (newj2len : gmap nat nat) (best : Match) : gmap nat nat * Match :=
  match js with
  | [] => (newj2len, best)
  | j :: js' =>
      if j <? blo then scan_positions i j2len js' newj2len best
      else if bhi <=? j then (newj2len, best)
      else
        let k := j2lenget j2len j + 1 in
        let newj2len := <[j := k]> newj2len in
        let best := if size best <? k then (i + 1 - k, j + 1 - k, k) else best in
        scan_positions i j2len js' newj2len best
  end.

(** One turn of [for i in range(alo, ahi)]. *)
Definition scan_row (st : gmap nat nat * Match) (i : nat) : gmap nat nat * Match :=
  match a !! i with
  | Some elt => scan_positions i st.1 (default [] (b2j !! elt)) ∅ st.2
  | None => (∅, st.2)
  end.

(** [while besti > alo and bestj > blo and isbjunk(b[bestj-1]) == junk
    and a[besti-1] == b[bestj-1]]: one step to the left each turn. *)
Fixpoint extend_left (junk : bool) (besti bestj bestsize : nat) : Match :=
  match besti, bestj with
  | S i', S j' =>
      match a !! i', b !! j' with
      | Some x, Some y =>
          if (alo <? besti) && (blo <? bestj)
             && Bool.eqb (isbjunk y) junk && (x =? y)%N
          then extend_left junk i' j' (S bestsize)
          else (besti, bestj, bestsize)
      | _, _ => (besti, bestj, bestsize)
      end
  | _, _ => (besti, bestj, bestsize)
  end.

(** [while besti+bestsize < ahi and bestj+bestsize < bhi and
    isbjunk(b[bestj+bestsize]) == junk and a[besti+bestsize] ==
    b[bestj+bestsize]]; [room] is [ahi - (besti+bestsize)]. *)
Fixpoint extend_right (junk : bool) (room besti bestj bestsize : nat) : Match :=
  match room with
  | 0 => (besti, bestj, bestsize)
  | S room' =>
      match a !! (besti + bestsize), b !! (bestj + bestsize) with
      | Some x, Some y =>
          if (bestj + bestsize <? bhi)
             && Bool.eqb (isbjunk y) junk && (x =? y)%N
          then extend_right junk room' besti bestj (S bestsize)
          else (besti, bestj, bestsize)
      | _, _ => (besti, bestj, bestsize)
      end
  end.

Definition extend (junk : bool) (m : Match) : Match :=
  let '(besti, bestj, bestsize) := m in
  let '(besti, bestj, bestsize) := extend_left junk besti bestj bestsize in
  extend_right junk (ahi - (besti + bestsize)) besti bestj bestsize.

Definition find_longest_match : Match :=
  let st := fold_left scan_row (seq alo (ahi - alo)) (∅, (alo, blo, 0)) in
  extend true (extend false st.2).
End find_longest_match.

(** A region [(alo, ahi, blo, bhi)] still to be looked at. *)
Definition region : Type := nat * nat * nat * nat.

(** The [while queue:] loop of [get_matching_blocks].  The queue is a
    Python list used as a stack; its last element is the head here. *)
Fixpoint blocks_loop (a b : str) (b2j : gmap codepoint (list nat))
    (fuel : nat) (queue : list region) (matching_blocks : list Match)
  : list Match :=
  match fuel with
  | 0 => matching_blocks
  | S fuel' =>
      match queue with
      | [] => matching_blocks
      | (alo, ahi, blo, bhi) :: queue =>
          let '(i, j, k) := find_longest_match a b b2j alo ahi blo bhi in
          if k =? 0 then blocks_loop a b b2j fuel' queue matching_blocks
          else
            let matching_blocks := matching_blocks ++ [(i, j, k)] in
            let queue :=
              if (alo <? i) && (blo <? j)
              then (alo, i, blo, j) :: queue else queue in
            let queue :=
              if (i + k <? ahi) && (j + k <? bhi)
              then (i + k, ahi, j + k, bhi) :: queue else queue in
            blocks_loop a b b2j fuel' queue matching_blocks
      end
  end.

(** Tuple order, as [list.sort()] uses it. *)
Definition match_le (x y : Match) : Prop :=
  let '(i1, j1, k1) := x in
  let '(i2, j2, k2) := y in
  i1 < i2 ∨ (i1 = i2 ∧ (j1 < j2 ∨ (j1 = j2 ∧ k1 ≤ k2))).

#[global] Instance match_le_dec x y : Decision (match_le x y).
Proof. destruct x as [[??]?], y as [[??]?]; simpl; apply _. Defined.

(** The loop that merges adjacent blocks. *)
Fixpoint collapse (cur : Match) (blocks : list Match) (non_adjacent : list Match)
  : list Match :=
  let '(i1, j1, k1) := cur in
  match blocks with
  | [] => if k1 =? 0 then non_adjacent else non_adjacent ++ [cur]
  | (i2, j2, k2) :: blocks' =>
      if (i1 + k1 =? i2) && (j1 + k1 =? j2)
      then collapse (i1, j1, k1 + k2) blocks' non_adjacent
      else collapse (i2, j2, k2) blocks'
             (if k1 =? 0 then non_adjacent else non_adjacent ++ [cur])
  end.

(** Turns of the [while queue:] loop that always suffice: see
    [DifflibFacts.blocks_fuel_enough]. *)
Definition blocks_fuel (a : str) : nat := 2 * length a + 1.

Definition get_matching_blocks (a b : str) : list Match :=
  let la := length a in
  let lb := length b in
  let matching_blocks :=
    blocks_loop a b (chain_b b) (blocks_fuel a) [(0, la, 0, lb)] [] in
  let matching_blocks := merge_sort match_le matching_blocks in
  collapse (0, 0, 0) matching_blocks [] ++ [(la, lb, 0)].

(** [sum(triple[-1] for triple in self.get_matching_blocks())] *)
Definition matches (a b : str) : nat :=
  foldr Nat.add 0 (map size (get_matching_blocks a b)).

(** [int] to [float]; exact below 2^53, far above the length of any
    sequence. *)
Definition float_of_nat (n : nat) : float :=
  PrimFloat.of_uint63 (Uint63.of_Z (Z.of_nat n)).

Definition _calculate_ratio (matches length : nat) : float :=
  if length =? 0 then 1%float
  else PrimFloat.div (PrimFloat.mul 2%float (float_of_nat matches))
                     (float_of_nat length).

Definition ratio (a b : str) : float :=
  _calculate_ratio (matches a b) (length a + length b).

End Difflib.

(** ** [src/parser.py] *)

Module Song.
Import Py.

(** [@dataclass(frozen=True, slots=True) class Song] *)
Record t := Song { title : str; artist : str; album : str; duration : Z }.

(** The [duration: str | int] argument of [create]. *)
Inductive raw_duration :=
| RawStr (raw : str)
| RawInt (raw : Z).

(** [minutes, seconds = raw.split(":")] needs exactly two pieces. *)
Definition _parse_duration (raw : raw_duration) : result Z :=
  match raw with
  | RawInt n => Ok n
  | RawStr raw =>
      match split 0x3a raw with
      | [minutes; seconds] =>
          bind (int minutes) (fun m =>
          bind (int seconds) (fun s =>
          Ok (m * 60 + s)%Z))
      | [] | [_] =>
          Raise (ValueError (lit "not enough values to unpack (expected 2, got 1)") [])
      | _ :: _ :: _ :: _ =>
          Raise (ValueError (lit "too many values to unpack (expected 2)") [])
      end
  end.

Definition create (title artist album : str) (duration : raw_duration) : result t :=
  bind (_parse_duration duration) (fun d => Ok (Song title artist album d)).

(** The literal [0.8]: the binary64 value nearest to 8/10. *)
Definition threshold : float := 0x1.999999999999ap-1%float.

(** [__eq__]: the titles, lowercased, compared by [SequenceMatcher]. *)
Definition __eq__ (self that : t) : bool :=
  let a := lower (title self) in
  let b := lower (title that) in
  PrimFloat.leb threshold (Difflib.ratio (lower a) (lower b)).

End Song.

Module Playlist.
Import Py.

(** [tag] holds what [__init__] stores in [self.tag]. *)
Record t := Playlist { songs : list Song.t; tag : option str }.

(** [def __init__(self, songs, tag=''): self.songs = songs; self.tag=None] *)
Definition __init__ (songs : list Song.t) (tag : str) : t :=
  {| songs := songs; tag := None |}.

(** The default of the [tag] argument. *)
Definition default_tag : str := [].

Definition __iter__ (self : t) : list Song.t := songs self.

Definition __len__ (self : t) : nat := length (songs self).

End Playlist.

Module Parser.
Import Py.

(** The body of [while True:] in [parse_filepath], over the lines the
    file object still has to yield. *)
Equations? parse_chunks (f : list str) (songs : list Song.t)
  : result (list Song.t) by wf (length f) lt :=
  parse_chunks [] songs := Ok songs;
  parse_chunks (line :: f') songs :=
    let song_chunk := take 5 (line :: f') in
    let song_chunk :=
      map strip (filter (fun line => strip line ≠ []) song_chunk) in
    match song_chunk with
    | [track_no; title; artist; album; duration] =>
        match Song.create title artist album (Song.RawStr duration) with
        | Ok song => parse_chunks (drop 5 (line :: f')) (songs ++ [song])
        | Raise e => Raise e
        end
    | _ => Raise (ValueError (lit "Malformed entry: ") song_chunk)
    end.
Proof. simpl. rewrite length_drop. lia. Qed.

(** [parse_filepath]: [f] is the sequence of lines of the file at
    [file_path], each with its line ending. *)
Definition parse_filepath (f : list str) : result Playlist.t :=
  bind (parse_chunks f [])
       (fun songs => Ok (Playlist.__init__ songs Playlist.default_tag)).

Definition playlist_intersection (playlist_1 playlist_2 : Playlist.t) : Playlist.t :=
  let song_intersection :=
    fold_left
      (fun song_intersection s1 =>
         fold_left
           (fun song_intersection s2 =>
              if Song.__eq__ s1 s2 then song_intersection ++ [s1]
              else song_intersection)
           (Playlist.__iter__ playlist_2) song_intersection)
      (Playlist.__iter__ playlist_1) [] in
  Playlist.__init__ song_intersection (lit "intersect").

(** [re.compile(r"[^-\w\s]")] matches the characters outside this class. *)
Definition _filename_rx_keeps (c : codepoint) : bool :=
  (c =? 0x2d)%N || isword c || isspace c.

Definition _sanitize (text : str) : str :=
  lower (replace 0x20 0x5f (strip (filter (fun c => _filename_rx_keeps c = true) text))).

(** *** The lyric cache *)

(** What [lyricsgenius] hands back: a song object with its [lyrics]. *)
Record genius_song := { lyrics : str }.

(** An outcome of [genius.search_song]: it returns a song or [None], or
    it raises. *)
Inductive response :=
| Returns (result : option genius_song)
| Raises (e : exn).

(** The provider, as far as [get_lyrics] sees it:
    [search_song(title=..., artist=..., get_full_info=False)]. *)
Definition lyricsgenius := str -> str -> response.

(** Lines printed on standard output. *)
Inductive output :=
| InCache (song : Song.t)
| ErrorFetching (song : Song.t) (e : exn).

(** Effects, in the order they happen. *)
Inductive event :=
| Mkdir
| Print (line : output)
| ReadText (fname : str)
| SearchSong (title artist : str)
| Sleep (seconds : nat)
| WriteText (fname text : str).

(** The directory [lyrics_cache] ([None]: it does not exist yet), one
    text per file name, and the effects so far. *)
Record world := World { lyrics_cache : option (gmap str str); trace : list event }.

(** Computations over the world that may raise. *)
Definition M (A : Type) : Type := world -> result A * world.

Definition ret {A} (a : A) : M A := fun w => (Ok a, w).

Definition raise {A} (e : exn) : M A := fun w => (Raise e, w).

Definition mbind {A B} (m : M A) (k : A -> M B) : M B :=
  fun w =>
    match m w with
    | (Ok a, w') => k a w'
    | (Raise e, w') => (Raise e, w')
    end.

(** [try: body except Exception as e: handler(e)] *)
Definition try_except {A} (body : M A) (handler : exn -> M A) : M A :=
  fun w =>
    match body w with
    | (Ok a, w') => (Ok a, w')
    | (Raise e, w') => handler e w'
    end.

Notation "'let*' x ':=' m 'in' k" := (mbind m (fun x => k))
  (at level 10, x pattern, m at level 200, k at level 200).

Definition emit (e : event) : M unit :=
  fun w => (Ok tt, World (lyrics_cache w) (trace w ++ [e])).

Definition files (w : world) : gmap str str := default ∅ (lyrics_cache w).

(** [folder.mkdir(exist_ok=True)] *)
Definition mkdir : M unit :=
  fun w => (Ok tt, World (Some (files w)) (trace w ++ [Mkdir])).

(** [cache_path.exists()] *)
Definition exists_ (fname : str) : M bool :=
  fun w => (Ok (bool_decide (is_Some (files w !! fname))), w).

(** [cache_path.read_text(encoding="utf-8")] *)
Definition read_text (fname : str) : M str :=
  fun w =>
    match files w !! fname with
    | Some text => (Ok text, World (lyrics_cache w) (trace w ++ [ReadText fname]))
    | None => (Raise (FileNotFoundError fname), w)
    end.

(** [cache_path.write_text(text, encoding="utf-8")] *)
Definition write_text (fname text : str) : M unit :=
  fun w =>
    (Ok tt, World (Some (<[fname := text]> (files w)))
                  (trace w ++ [WriteText fname text])).

Definition print (line : output) : M unit := emit (Print line).

(** [time.sleep(seconds)] *)
Definition sleep (seconds : nat) : M unit := emit (Sleep seconds).

Definition search_song (genius : lyricsgenius) (title artist : str)
  : M (option genius_song) :=
  fun w =>
    let w' := World (lyrics_cache w) (trace w ++ [SearchSong title artist]) in
    match genius title artist with
    | Returns result => (Ok result, w')
    | Raises e => (Raise e, w')
    end.

(** [f"{_sanitize(song.artist)}-{_sanitize(song.title)}.txt"] *)
Definition cache_fname (song : Song.t) : str :=
  _sanitize (Song.artist song) ++ lit "-" ++ _sanitize (Song.title song) ++ lit ".txt".

(** The [try] statement of [get_lyrics]: [Some text] when its body
    leaves the function by [return], [None] when control goes on to the
    last line. *)
Definition fetch (song : Song.t) (genius : lyricsgenius) (fname : str)
  : M (option str) :=
  try_except
    (let* result := search_song genius (Song.title song) (Song.artist song) in
     let* _ := sleep 15 in
     match result with
     | Some found =>
         let* _ := write_text fname (lyrics found) in
         ret (Some (lyrics found))
     | None => ret None
     end)
    (fun e => let* _ := print (ErrorFetching song e) in ret None).

Definition get_lyrics (song : Song.t) (genius : lyricsgenius) : M str :=
  let* _ := mkdir in
  let fname := cache_fname song in
  let* hit := exists_ fname in
  if hit : bool then
    let* _ := print (InCache song) in
    read_text fname
  else
    let* returned := fetch song genius fname in
    match returned with
    | Some text => ret text
    | None => ret []
    end.

End Parser.

(** ** The rest of [src/parser.py]: what the charts are drawn from *)

Module Charts.
Import Py.

(** [visualize_intersection_venn]: the [subsets] handed to [venn2]. *)
Definition visualize_intersection_venn (len_s1 len_s2 len_intersection : Z)
  : Z * Z * Z :=
  let only_s1 := (len_s1 - len_intersection)%Z in
  let only_s2 := (len_s2 - len_intersection)%Z in
  (only_s1, only_s2, len_intersection).

(** [len(playlist)] as a Python [int]. *)
Definition len (playlist : Playlist.t) : Z := Z.of_nat (Playlist.__len__ playlist).

End Charts.

(** ** The rest of [src/parser.py]: the table of songs *)

Module Render.
Import Py.

(** [str(n)] for an [int]. *)
Definition str_of_int (n : Z) : str :=
  lit (DecimalString.NilZero.string_of_int (Z.to_int n)).

(** The format specifications [:<width] and [:>width]: blanks up to the
    width, nothing cut. *)
Definition ljust (width : nat) (s : str) : str :=
  s ++ replicate (width - length s) 0x20%N.

Definition rjust (width : nat) (s : str) : str :=
  replicate (width - length s) 0x20%N ++ s.

(** [Song.__str__] *)
Definition __str__ (self : Song.t) : str :=
  ljust 40 (take 40 (Song.title self)) ++ lit " | "
  ++ ljust 20 (take 20 (Song.artist self)) ++ lit " | "
  ++ ljust 25 (take 25 (Song.album self)) ++ lit " | "
  ++ rjust 5 (str_of_int (Song.duration self)) ++ lit "s".

(** [Playlist.print_all]: the lines printed. *)
Definition print_all (self : Playlist.t) : list str :=
  map __str__ (Playlist.songs self).

End Render.

(** ** The rest of [src/parser.py]: the artist chart *)

Module ArtistChart.
Import Py.

(** A [dict] whose order of keys matters: the pairs in insertion order,
    each key once. *)
Section dict.
Context {K V : Type} `{EqDecision K}.

(** [d.get(k)] *)
Fixpoint dict_get (k : K) (d : list (K * V)) : option V :=
  match d with
  | [] => None
  | (k', v) :: d' => if decide (k = k') then Some v else dict_get k d'
  end.

(** [d[k] = v]: in place when the key is there, at the end when not. *)
Fixpoint dict_set (k : K) (v : V) (d : list (K * V)) : list (K * V) :=
  match d with
  | [] => [(k, v)]
  | (k', v') :: d' =>
      if decide (k = k') then (k, v) :: d' else (k', v') :: dict_set k v d'
  end.
End dict.

(** [sorted]: a stable sort, by insertion from the right. *)
Section sorted.
Context {A : Type} (leb : A -> A -> bool).

Fixpoint insert (x : A) (l : list A) : list A :=
  match l with
  | [] => [x]
  | y :: l' => if leb x y then x :: l else y :: insert x l'
  end.

Definition sorted (l : list A) : list A := foldr insert [] l.
End sorted.

(** The order of tuples [(x, y)] of integers. *)
Definition pair_leb (p q : nat * nat) : bool :=
  (p.1 <? q.1) || ((p.1 =? q.1) && (p.2 <=? q.2)).

(** [songs_by_artist], a [defaultdict(list)] filled in playlist order. *)
Definition songs_by_artist (songs : list Song.t) : list (str * list Song.t) :=
  fold_left
    (fun d s =>
       dict_set (Song.artist s) (default [] (dict_get (Song.artist s) d) ++ [s]) d)
    songs [].

(** [Counter(values)] *)
Definition Counter (values : list nat) : list (nat * nat) :=
  fold_left (fun d v => dict_set v (default 0 (dict_get v d) + 1) d) values [].

(** What is drawn: the labels and heights of [ax.bar]. *)
Inductive bars :=
| BarByArtist (artists_sorted : list str) (freqs_sorted : list nat)
| BarByFrequency (x y : list nat).

(** [f'{self.tag}_']: [None] prints as "None". *)
Definition tag_prefix (tag : option str) : str :=
  default (lit "None") tag ++ lit "_".

(** [artist_frequency_dist]: the bars drawn and the name of the file
    saved. *)
Definition artist_frequency_dist (self : Playlist.t) (freq : bool)
  : result (bars * str) :=
  let groups := songs_by_artist (Playlist.songs self) in
  if negb (sum_list (map (fun '(_, j) => length j) groups)
           =? length (Playlist.songs self))
  then Raise (Exception [])
  else
    let counts := map (fun '(artist, lst) => (artist, length lst)) groups in
    let counts_get := fun artist => default 0 (dict_get artist counts) in
    let artists_sorted :=
      sorted (fun a b => counts_get a <=? counts_get b) (map fst counts) in
    if freq then
      let freqs_sorted := map counts_get artists_sorted in
      Ok (BarByArtist artists_sorted freqs_sorted,
          tag_prefix (Playlist.tag self) ++ lit "artist_frequency_bar.png")
    else
      let freq_of_freq := Counter (map snd counts) in
      match sorted pair_leb freq_of_freq with
      | [] => Raise (ValueError (lit "not enough values to unpack (expected 2, got 0)") [])
      | items =>
          Ok (BarByFrequency (map fst items) (map snd items),
              tag_prefix (Playlist.tag self) ++ lit "artist_frequency_dist.png")
      end.

End ArtistChart.

(** ** The rest of [src/parser.py]: the corpus of the word cloud *)

Module Words.
Import Py Parser.

(** The module-level set [forbidden_words]. *)
Definition forbidden_words : gset str :=
  list_to_set (map lit [
    "remastered"; "remaster"; "chorus"; "verse"; ""; "the"; "a"; "an";
    "and"; "or"; "but"; "if"; "so"; "for"; "to"; "of"; "at"; "by"; "in";
    "on"; "with"; "from"; "up"; "down"; "out"; "over"; "under"; "again";
    "once"; "is"; "am"; "are"; "was"; "were"; "be"; "been"; "being";
    "have"; "has"; "had"; "do"; "does"; "did"; "will"; "would"; "shall";
    "should"; "can"; "could"; "may"; "might"; "must"; "uh"; "um"; "er";
    "ah"; "oh"; "like"; "yeah"; "yep"; "okay"; "ok"; "really"; "just";
    "very"; "literally"; "actually"; "basically"; "kinda"; "sorta"; "la"
  ]%string).

(** [str.split()] with no argument: the maximal runs of characters that
    are not white space.  [word] holds the run being read, last character
    first. *)
Fixpoint split_runs (s : str) (word : str) : list str :=
  match s with
  | [] => match word with [] => [] | _ :: _ => [rev word] end
  | c :: s' =>
      if isspace c then
        match word with
        | [] => split_runs s' []
        | _ :: _ => rev word :: split_runs s' []
        end
      else split_runs s' (c :: word)
  end.

Definition split_whitespace (s : str) : list str := split_runs s [].

(** [re.sub(r"[^\w]", "", w).lower()] *)
Definition clean (w : str) : str :=
  lower (filter (fun c => isword c = true) w).

(** The inner loop of [wordCloud]: the words of one song's lyrics, added
    to [text]. *)
Definition add_words (text lyrics : str) : str :=
  fold_left
    (fun text w =>
       let w := clean w in
       if decide (w ∈ forbidden_words) then text else text ++ 0x20%N :: w)
    (split_whitespace lyrics) text.

(** The outer loop of [wordCloud]. *)
Fixpoint corpus (songs : list Song.t) (genius : lyricsgenius) (text : str) : M str :=
  match songs with
  | [] => ret text
  | i :: songs' =>
      let* lyrics := get_lyrics i genius in
      corpus songs' genius (add_words text lyrics)
  end.

(** [wordCloud], up to the text it hands to [WordCloud(...).generate]. *)
Definition wordCloud (playlist : Playlist.t) (genius : lyricsgenius) : M str :=
  corpus (Playlist.__iter__ playlist) genius [].

End Words.

(** ** The rest of [src/parser.py]: the catalog adapter *)

Module Spotify.
Import Py.

(** [item["track"]], as far as [parse_spotify_url] reads it: the name, the
    names of the artists, the name of the album, the duration. *)
Record track := Track {
  name : str;
  artists : list str;
  album : str;
  duration_ms : Z
}.

(** What [sp.playlist_items] returns. *)
Record page := Page { items : list track; total : Z }.

(** The client: [playlist_items(playlist_url, offset=..., limit=100,
    additional_types=["track"])] returns a page or raises. *)
Definition spotipy := str -> nat -> result page.

(** [sep.join(pieces)] *)
Fixpoint join (sep : str) (pieces : list str) : str :=
  match pieces with
  | [] => []
  | [piece] => piece
  | piece :: pieces' => piece ++ sep ++ join sep pieces'
  end.

(** [needle in haystack] *)
Fixpoint startswith (s prefix : str) : bool :=
  match prefix, s with
  | [], _ => true
  | p :: prefix', c :: s' => (c =? p)%N && startswith s' prefix'
  | _ :: _, [] => false
  end.

Fixpoint contains (haystack needle : str) : bool :=
  startswith haystack needle
  || match haystack with
     | [] => false
     | _ :: haystack' => contains haystack' needle
     end.

(** An [int] as a [float]; exact below 2^53 in absolute value. *)
Definition float_of_int (n : Z) : float :=
  if (n <? 0)%Z then PrimFloat.opp (PrimFloat.of_uint63 (Uint63.of_Z (- n)))
  else PrimFloat.of_uint63 (Uint63.of_Z n).

(** [int(x)] for a float [x]: the integer part, towards zero. *)
Definition int_of_float (x : float) : result Z :=
  match Prim2SF x with
  | S754_zero _ => Ok 0%Z
  | S754_finite s m e =>
      let magnitude :=
        if (0 <=? e)%Z then (Z.pos m * 2 ^ e)%Z else (Z.pos m / 2 ^ (- e))%Z in
      Ok (if s then (- magnitude)%Z else magnitude)
  | S754_infinity _ =>
      Raise (Exception (lit "cannot convert float infinity to integer"))
  | S754_nan => Raise (ValueError (lit "cannot convert float NaN to integer") [])
  end.

(** The song made of one item. *)
Definition song_of_track (t : track) : result Song.t :=
  bind (int_of_float (PrimFloat.div (float_of_int (duration_ms t)) 1000%float))
       (fun seconds =>
          Song.create (name t) (join (lit ", ") (artists t)) (album t)
                      (Song.RawInt seconds)).

(** [for item in page["items"]: songs.append(Song.create(...))] *)
Fixpoint add_items (songs : list Song.t) (items : list track) : result (list Song.t) :=
  match items with
  | [] => Ok songs
  | t :: items' =>
      bind (song_of_track t) (fun song => add_items (songs ++ [song]) items')
  end.

(** The [while True:] loop; [None] when it is still running after [fuel]
    turns. *)
Fixpoint pages (sp : spotipy) (playlist_url tag : str) (fuel offset : nat)
    (songs : list Song.t) : option (result Playlist.t) :=
  match fuel with
  | 0 => None
  | S fuel' =>
      match sp playlist_url offset with
      | Raise e => Some (Raise e)
      | Ok page =>
          match add_items songs (items page) with
          | Raise e => Some (Raise e)
          | Ok songs =>
              let offset := offset + length (items page) in
              if (total page <=? Z.of_nat offset)%Z
              then Some (Ok (Playlist.__init__ songs tag))
              else pages sp playlist_url tag fuel' offset songs
          end
      end
  end.

Definition playlist_link : str := lit "https://open.spotify.com/playlist".

(** [parse_spotify_url]; a failed [assert] is the exception with the
    message of the statement. *)
Definition parse_spotify_url (sp : spotipy) (playlist_url tag : str) (fuel : nat)
  : option (result Playlist.t) :=
  if contains playlist_url playlist_link
  then pages sp playlist_url tag fuel 0 []
  else Some (Raise (Exception (playlist_url ++ lit " is not a spotify playlist link"))).

End Spotify.

(** ** The matcher's loop ends *)

Module DifflibFacts.
Import Py Difflib.

Section bounds.
Variables (a b : str) (b2j : gmap codepoint (list nat)).
Variables (alo ahi blo bhi : nat).
Hypothesis region_ok : alo ≤ ahi.

(** A block that lies in [a[alo:ahi]]. *)
Definition within (m : Match) : Prop := alo ≤ m.1.1 ∧ m.1.1 + size m ≤ ahi.

Lemma j2lenget_bound (j2len : gmap nat nat) j n :
  map_Forall (fun _ v => v ≤ n) j2len → j2lenget j2len j ≤ n.
Proof.
  intros H. destruct j as [|j]; simpl; [lia|].
  destruct (j2len !! j) as [v|] eqn:E; simpl; [|lia]. by apply H in E.
Qed.

Lemma scan_positions_within i (j2len : gmap nat nat) js (newj2len : gmap nat nat) best :
  alo ≤ i → i < ahi →
  map_Forall (fun _ v => v ≤ i - alo) j2len →
  map_Forall (fun _ v => v ≤ S i - alo) newj2len →
  within best →
  map_Forall (fun _ v => v ≤ S i - alo) (scan_positions blo bhi i j2len js newj2len best).1
  ∧ within (scan_positions blo bhi i j2len js newj2len best).2.
Proof.
  intros Hlo Hhi Hold. revert newj2len best.
  induction js as [|j js IH]; intros newj2len best Hnew Hbest; simpl; [done|].
  destruct (j <? blo); [by apply IH|].
  destruct (bhi <=? j); [done|].
  pose proof (j2lenget_bound j2len j _ Hold) as Hk.
  apply IH.
  - apply map_Forall_insert_2; [lia|done].
  - destruct (size best <? j2lenget j2len j + 1); [|done].
    unfold within, size. simpl. lia.
Qed.

Lemma scan_rows_within n : ∀ s (st : gmap nat nat * Match),
  alo ≤ s → s + n ≤ ahi →
  map_Forall (fun _ v => v ≤ s - alo) st.1 → within st.2 →
  within (fold_left (scan_row a b2j blo bhi) (seq s n) st).2.
Proof.
  induction n as [|n IH]; intros s st Hs Hn Hmap Hbest; simpl; [done|].
  assert (map_Forall (fun _ v => v ≤ S s - alo) (scan_row a b2j blo bhi st s).1
          ∧ within (scan_row a b2j blo bhi st s).2) as [H1 H2].
  { unfold scan_row. destruct (a !! s); [|split; [apply map_Forall_empty|done]].
    apply scan_positions_within; [done|lia|done|apply map_Forall_empty|done]. }
  apply IH; [lia|lia|done..].
Qed.

Lemma extend_left_within junk besti bestj bestsize :
  within (besti, bestj, bestsize) →
  within (extend_left a b alo blo junk besti bestj bestsize).
Proof.
  revert bestj bestsize. induction besti as [|i IH]; intros bestj bestsize H; [done|].
  destruct bestj as [|j]; [done|]. simpl.
  destruct (a !! i) as [x|]; [|done]. destruct (b !! j) as [y|]; [|done].
  destruct (alo <? S i) eqn:E; [|done]. simpl.
  destruct (_ && _); [|done].
  apply IH. apply Nat.ltb_lt in E. unfold within, size in *. simpl in *. lia.
Qed.

Lemma extend_right_within junk room besti bestj bestsize :
  alo ≤ besti → besti + bestsize + room ≤ ahi →
  within (extend_right a b bhi junk room besti bestj bestsize).
Proof.
  revert bestsize. induction room as [|room IH]; intros bestsize H1 H2; simpl.
  - unfold within, size. simpl. lia.
  - assert (within (besti, bestj, bestsize)) as Hw
      by (unfold within, size; simpl; lia).
    destruct (a !! (besti + bestsize)); [|done].
    destruct (b !! (bestj + bestsize)); [|done].
    destruct (_ && _); [|done].
    apply IH; lia.
Qed.

Lemma extend_within junk m : within m → within (extend a b alo ahi blo bhi junk m).
Proof.
  destruct m as [[besti bestj] bestsize]. intros H. unfold extend.
  pose proof (extend_left_within junk besti bestj bestsize H) as H'.
  destruct (extend_left a b alo blo junk besti bestj bestsize) as [[i j] k].
  unfold within, size in H'. simpl in H'.
  apply extend_right_within; lia.
Qed.

(** The block that [find_longest_match] returns lies in [a[alo:ahi]]. *)
Lemma find_longest_match_within :
  within (find_longest_match a b b2j alo ahi blo bhi).
Proof.
  unfold find_longest_match. do 2 apply extend_within.
  apply scan_rows_within; simpl; [done|lia|apply map_Forall_empty|].
  unfold within, size. simpl. lia.
Qed.
End bounds.

(** What is left to look at: each region weighs twice its width in [a],
    plus one. *)
Definition weight (queue : list region) : nat :=
  foldr (fun '(alo, ahi, _, _) n => 2 * (ahi - alo) + 1 + n) 0 queue.

Definition ordered (r : region) : Prop :=
  let '(alo, ahi, _, _) := r in alo ≤ ahi.

(** Once the fuel covers the weight of the queue, more fuel changes
    nothing: the loop stops because the queue is empty. *)
Lemma blocks_loop_fuel a b b2j : ∀ fuel fuel' queue blocks,
  Forall ordered queue → weight queue ≤ fuel → weight queue ≤ fuel' →
  blocks_loop a b b2j fuel queue blocks = blocks_loop a b b2j fuel' queue blocks.
Proof.
  induction fuel as [|fuel IH]; intros fuel' queue blocks Hq H1 H2.
  - destruct queue as [|[[[alo ahi] blo] bhi] queue]; [by destruct fuel'|].
    simpl in H1. lia.
  - destruct queue as [|[[[alo ahi] blo] bhi] queue]; [by destruct fuel'|].
    destruct fuel' as [|fuel']; [simpl in H2; lia|].
    apply Forall_cons in Hq as [Hr Hq]. simpl in Hr, H1, H2. simpl.
    pose proof (find_longest_match_within a b b2j alo ahi blo bhi Hr) as Hw.
    destruct (find_longest_match a b b2j alo ahi blo bhi) as [[i j] k].
    unfold within, size in Hw. simpl in Hw.
    destruct (Nat.eqb_spec k 0) as [->|Hk]; [apply IH; [done|lia..]|].
    destruct ((alo <? i) && (blo <? j)) eqn:E1;
      destruct ((i + k <? ahi) && (j + k <? bhi)) eqn:E2;
      apply IH; repeat (apply Forall_cons; split); simpl; try done; try lia.
Qed.

(** The fuel of [get_matching_blocks] is the weight of its first queue. *)
Lemma blocks_fuel_enough a b fuel :
  blocks_fuel a ≤ fuel →
  blocks_loop a b (chain_b b) fuel [(0, length a, 0, length b)] []
  = blocks_loop a b (chain_b b) (blocks_fuel a) [(0, length a, 0, length b)] [].
Proof.
  intros H. apply blocks_loop_fuel.
  - repeat constructor. simpl. lia.
  - unfold weight, blocks_fuel in *. simpl. lia.
  - unfold weight, blocks_fuel. simpl. lia.
Qed.

End DifflibFacts.

(** ** Properties of the runtime functions *)

Module PyFacts.
Import Py.

Lemma split_nonempty sep s : split sep s ≠ [].
Proof.
  destruct s as [|c s]; simpl; [done|].
  destruct (c =? sep)%N; [done|]. by destruct (split sep s).
Qed.

(** A string without the separator is its own single piece. *)
Lemma split_no_sep sep s : sep ∉ s → split sep s = [s].
Proof.
  induction s as [|c s IH]; intros Hs; simpl; [done|].
  apply not_elem_of_cons in Hs as [Hc Hs].
  destruct (N.eqb_spec c sep) as [->|_]; [done|].
  by rewrite IH.
Qed.

(** The first piece ends at the first separator. *)
Lemma split_app_sep sep x y :
  sep ∉ x → split sep (x ++ sep :: y) = x :: split sep y.
Proof.
  induction x as [|c x IH]; intros Hx; simpl.
  - by rewrite N.eqb_refl.
  - apply not_elem_of_cons in Hx as [Hc Hx].
    destruct (N.eqb_spec c sep) as [->|_]; [done|].
    by rewrite IH.
Qed.

Lemma split_cons_inv sep s p ps :
  split sep s = p :: ps →
  (sep ∉ p) ∧ ((ps = [] ∧ s = p) ∨ ∃ s', s = p ++ sep :: s' ∧ split sep s' = ps).
Proof.
  revert p ps. induction s as [|c s IH]; intros p ps; simpl.
  - intros [= <- <-]. split; [apply not_elem_of_nil|by left].
  - destruct (N.eqb_spec c sep) as [->|Hc].
    + intros [= <- <-]. split; [apply not_elem_of_nil|].
      right. by exists s.
    + destruct (split sep s) as [|q qs] eqn:Hq; [by destruct (split_nonempty sep s)|].
      intros [= <- <-]. destruct (IH q qs eq_refl) as [Hq' Hs].
      split; [by apply not_elem_of_cons|].
      destruct Hs as [[-> ->]|(s' & -> & Hs')]; [by left|].
      right. by exists s'.
Qed.

(** Exactly two pieces: exactly one separator, between them. *)
Lemma split_two_inv sep s p1 p2 :
  split sep s = [p1; p2] → s = p1 ++ sep :: p2 ∧ (sep ∉ p1) ∧ (sep ∉ p2).
Proof.
  intros H. apply split_cons_inv in H as [H1 [[? _]|(s' & -> & H)]]; [done|].
  apply split_cons_inv in H as [H2 [[_ ->]|(s'' & _ & H)]]; [done|].
  by destruct (split_nonempty sep s'').
Qed.

(** [int] fails with a [ValueError] only. *)
Lemma int_raise s e : int s = Raise e → ∃ message values, e = ValueError message values.
Proof.
  unfold int, invalid_literal.
  destruct (read_sign (skip_int_space s)) as [sign s2].
  destruct (scan_digits s2 0 0 false) as [[[v n] rest]|]; [|intros [= <-]; eauto].
  destruct (skip_int_space rest); [|intros [= <-]; eauto].
  destruct (int_max_str_digits <? n); [intros [= <-]; eauto|done].
Qed.

Lemma scan_digits_nonneg s acc n d v n' rest :
  scan_digits s acc n d = Some (v, n', rest) → (0 ≤ acc)%Z → (0 ≤ v)%Z.
Proof.
  revert acc n d. induction s as [|c s IH]; intros acc n d; simpl.
  - destruct d; [|done]. by intros [= <- _ _].
  - destruct (isdecimal c).
    + intros H Hacc. eapply IH; [done|]. unfold digit_value. lia.
    + destruct (c =? 95)%N.
      * destruct d; [|done]. apply IH.
      * destruct d; [|done]. by intros [= <- _ _].
Qed.

Lemma skip_int_space_suffix s : ∃ pre, s = pre ++ skip_int_space s.
Proof.
  induction s as [|c s [pre IH]]; simpl; [by exists []|].
  destruct (int_space c); [|by exists []].
  exists (c :: pre). simpl. by f_equal.
Qed.

Lemma read_sign_plus s : 0x2d%N ∉ s → (read_sign s).1 = 1%Z.
Proof.
  destruct s as [|c s]; simpl; [done|]. intros Hs.
  destruct (c =? 43)%N; [done|].
  destruct (N.eqb_spec c 45) as [->|]; [|done].
  destruct Hs. left.
Qed.

(** Without a minus sign the integer read is not negative. *)
Lemma int_nonneg s v : int s = Ok v → 0x2d%N ∉ s → (0 ≤ v)%Z.
Proof.
  unfold int. intros H Hs.
  destruct (skip_int_space_suffix s) as [pre Hpre].
  assert (0x2d%N ∉ skip_int_space s) as Hs1.
  { rewrite Hpre in Hs. by apply not_elem_of_app in Hs as [_ ?]. }
  apply read_sign_plus in Hs1.
  destruct (read_sign (skip_int_space s)) as [sign s2]. simpl in Hs1. subst sign.
  destruct (scan_digits s2 0 0 false) as [[[v' n] rest]|] eqn:Hscan; [|done].
  destruct (skip_int_space rest); [|done].
  destruct (int_max_str_digits <? n); [done|].
  injection H as <-. apply scan_digits_nonneg in Hscan; lia.
Qed.

End PyFacts.

(** ** Song construction and duration parsing *)

Module SongFacts.
Import Py PyFacts.

Definition colon : codepoint := 0x3a.
Definition minus : codepoint := 0x2d.

(** What a duration string must look like for [_parse_duration] to
    return: two integer literals around one colon. *)
Definition well_formed (raw : str) (m s : Z) : Prop :=
  ∃ minutes seconds,
    raw = minutes ++ colon :: seconds ∧ (colon ∉ minutes) ∧ (colon ∉ seconds) ∧
    int minutes = Ok m ∧ int seconds = Ok s.

Lemma parse_duration_ok raw d :
  Song._parse_duration (Song.RawStr raw) = Ok d ↔
  ∃ m s, well_formed raw m s ∧ d = (m * 60 + s)%Z.
Proof.
  unfold Song._parse_duration. split.
  - destruct (split 58 raw) as [|minutes [|seconds [|? ?]]] eqn:Hsplit; try done.
    apply split_two_inv in Hsplit as (-> & Hm & Hs).
    destruct (int minutes) as [m|] eqn:Em; [|done].
    destruct (int seconds) as [s|] eqn:Es; [|done].
    simpl. intros [= <-]. exists m, s. split; [|done].
    by exists minutes, seconds.
  - intros (m & s & (minutes & seconds & -> & Hm & Hs & Em & Es) & ->).
    unfold colon in *. rewrite split_app_sep by done.
    rewrite split_no_sep by done. by rewrite Em, Es.
Qed.

Lemma parse_duration_raise raw e :
  Song._parse_duration raw = Raise e → ∃ message values, e = ValueError message values.
Proof.
  destruct raw as [raw|n]; [|done]. simpl.
  destruct (split 58 raw) as [|minutes [|seconds [|? ?]]];
    try (intros [= <-]; eauto).
  destruct (int minutes) as [m|e1] eqn:Em; simpl.
  - destruct (int seconds) as [s|e2] eqn:Es; simpl; [done|].
    intros [= <-]. by eapply int_raise.
  - intros [= <-]. by eapply int_raise.
Qed.




(** The same through a string: ["-1:30"] is stored as -30 seconds. *)
Example create_negative_string :
  Song.create (lit "Intro") (lit "X") (lit "Y") (Song.RawStr (lit "-1:30"))
  = Ok (Song.Song (lit "Intro") (lit "X") (lit "Y") (-30)).
Proof. reflexivity. Qed.



End SongFacts.

(** ** Fuzzy equality of songs *)

Module EqualityFacts.
Import Py.

(** A song that has the given title. *)
Definition titled (title : string) : Song.t :=
  Song.Song (lit title) (lit "artist") (lit "album") 180.

(** The title as [__eq__] hands it to the matcher. *)
Definition key (s : Song.t) : str := lower (lower (Song.title s)).




(** C5, as the specification states it, fails at the titles it names:
    ["Love Song"] equals ["Lover Song"], and ["Love Song (Remastered)"]
    equals neither. *)
Lemma spec_triple_is_not_a_counterexample :
  let a := titled "Love Song" in
  let b := titled "Love Song (Remastered)" in
  let c := titled "Lover Song" in
  Song.__eq__ a b = false ∧ Song.__eq__ b c = false ∧ Song.__eq__ a c = true.
Proof. vm_compute. done. Qed.

(** C5, amended.  Song equality is not transitive: ["My Love Song"]
    equals ["Love Song"], which equals ["Love Songs 2"], and
    ["My Love Song"] does not equal ["Love Songs 2"]. *)
Theorem eq_not_transitive :
  ∃ a b c,
    Song.title a = lit "My Love Song" ∧ Song.title b = lit "Love Song"
    ∧ Song.title c = lit "Love Songs 2"
    ∧ Song.__eq__ a b = true ∧ Song.__eq__ b c = true ∧ Song.__eq__ a c = false.
Proof.
  exists (titled "My Love Song"), (titled "Love Song"), (titled "Love Songs 2").
  vm_compute. done.
Qed.

End EqualityFacts.

(** ** Playlists and their intersection *)

Module IntersectionFacts.
Import Py.

(** The list [[a | a in A, b in B, equals(a, b)]] of the specification. *)
Definition comprehension (A B : list Song.t) : list Song.t :=
  a ← A; b ← B; if Song.__eq__ a b then [a] else [].

(** The songs of [B] that [a] matches. *)
Definition partners (a : Song.t) (B : list Song.t) : list Song.t :=
  filter (fun b => Song.__eq__ a b = true) B.

Section loops.
Variable s1 : Song.t.

Lemma inner_loop (B acc : list Song.t) :
  fold_left
    (fun acc s2 => if Song.__eq__ s1 s2 then acc ++ [s1] else acc) B acc
  = acc ++ (B ≫= fun b => if Song.__eq__ s1 b then [s1] else []).
Proof.
  revert acc. induction B as [|b B IH]; intros acc.
  - simpl. by rewrite app_nil_r.
  - rewrite bind_cons. simpl fold_left. rewrite IH.
    destruct (Song.__eq__ s1 b); [|done].
    by rewrite <- app_assoc.
Qed.

Lemma matches_of_one (B : list Song.t) :
  (B ≫= fun b => if Song.__eq__ s1 b then [s1] else [])
  = replicate (length (partners s1 B)) s1.
Proof.
  unfold partners. induction B as [|b B IH]; [done|].
  rewrite bind_cons, filter_cons, IH. destruct (Song.__eq__ s1 b) eqn:E.
  - by rewrite decide_True.
  - by rewrite decide_False.
Qed.
End loops.

Lemma outer_loop (A B acc : list Song.t) :
  fold_left
    (fun acc s1 =>
       fold_left
         (fun acc s2 => if Song.__eq__ s1 s2 then acc ++ [s1] else acc) B acc)
    A acc
  = acc ++ comprehension A B.
Proof.
  unfold comprehension. revert acc.
  induction A as [|a A IH]; intros acc.
  - simpl. by rewrite app_nil_r.
  - rewrite bind_cons. simpl fold_left. by rewrite IH, inner_loop, <- app_assoc.
Qed.

(** The copies of one song of [A] sit next to each other. *)
Lemma comprehension_grouped (A B : list Song.t) :
  comprehension A B = (a ← A; replicate (length (partners a B)) a).
Proof.
  unfold comprehension. induction A as [|a A IH]; [done|].
  rewrite !bind_cons. cbv beta. by rewrite matches_of_one, IH.
Qed.

(** C1.  The songs of [playlist_intersection(A, B)] are the list
    [[a | a in A, b in B, equals(a, b)]], [A] and [B] scanned in order;
    the song of [A] is what is appended, once for each song of [B] it
    matches, so that it occurs that many times in a row; and for [A = [X]]
    and [B = [X1, X2]] with [X] matching both, the result is [[X, X]], of
    length 2. *)
Theorem playlist_intersection_songs (A B : Playlist.t) :
  Playlist.songs (Parser.playlist_intersection A B)
  = comprehension (Playlist.songs A) (Playlist.songs B)
  ∧ comprehension (Playlist.songs A) (Playlist.songs B)
    = (a ← Playlist.songs A;
       replicate (length (partners a (Playlist.songs B))) a)
  ∧ (∀ X X1 X2,
       Playlist.songs A = [X] → Playlist.songs B = [X1; X2] →
       Song.__eq__ X X1 = true → Song.__eq__ X X2 = true →
       Playlist.songs (Parser.playlist_intersection A B) = [X; X]
       ∧ Playlist.__len__ (Parser.playlist_intersection A B) = 2).
Proof.
  assert (Playlist.songs (Parser.playlist_intersection A B)
          = comprehension (Playlist.songs A) (Playlist.songs B)) as Hsongs.
  { unfold Parser.playlist_intersection, Playlist.__iter__. simpl.
    by rewrite outer_loop. }
  split; [done|]. split.
  - apply comprehension_grouped.
  - intros X X1 X2 HA HB H1 H2. unfold Playlist.__len__.
    rewrite Hsongs, HA, HB. unfold comprehension.
    rewrite bind_cons. cbv beta. rewrite !bind_cons, H1, H2. done.
Qed.

Lemma playlist_intersection_songs_witness :
  let X := EqualityFacts.titled "Love Song" in
  let X1 := EqualityFacts.titled "Love Songs" in
  let X2 := EqualityFacts.titled "Lover Song" in
  let A := Playlist.__init__ [X] (lit "a") in
  let B := Playlist.__init__ [X1; X2] (lit "b") in
  Playlist.songs (Parser.playlist_intersection A B) = [X; X]
  ∧ Playlist.__len__ (Parser.playlist_intersection A B) = 2.
Proof.
  intros X X1 X2 A B.
  destruct (playlist_intersection_songs A B) as (_ & _ & H).
  apply (H X X1 X2); [reflexivity|reflexivity| |]; vm_compute; reflexivity.
Defined.

(** The specification's first example: [A = [X, Y]], [B = [X', Z]] with
    [X ~ X'] only. *)
Example intersection_single_match :
  let X := EqualityFacts.titled "Hey Jude" in
  let Y := EqualityFacts.titled "Yesterday" in
  let X' := EqualityFacts.titled "Hey Jude!" in
  let Z := EqualityFacts.titled "Imagine" in
  Playlist.songs
    (Parser.playlist_intersection (Playlist.__init__ [X; Y] (lit "a"))
                                  (Playlist.__init__ [X'; Z] (lit "b")))
  = [X].
Proof. vm_compute. reflexivity. Qed.

(** C8.  [__init__] drops its [tag] argument: whatever tag a playlist is
    built with, [self.tag] is [None], and so is the tag of the playlist
    that [playlist_intersection] returns, which passes ["intersect"]. *)
Theorem playlist_tag_is_none :
  Playlist.tag (Playlist.__init__ [] (lit "Ryan")) = None
  ∧ (∀ songs tag, Playlist.tag (Playlist.__init__ songs tag) = None)
  ∧ (∀ A B, Playlist.tag (Parser.playlist_intersection A B) = None
            ∧ Playlist.tag (Parser.playlist_intersection A B) ≠ Some (lit "intersect")).
Proof. done. Qed.

End IntersectionFacts.

(** ** The flat-file adapter *)

Module FileFacts.
Import Py.

Definition nonblank (line : str) : Prop := strip line ≠ [].

(** What the loop body makes of one chunk of lines. *)
Definition chunk_result (chunk : list str) : result Song.t :=
  match map strip (filter nonblank chunk) with
  | [track_no; title; artist; album; duration] =>
      Song.create title artist album (Song.RawStr duration)
  | song_chunk => Raise (ValueError (lit "Malformed entry: ") song_chunk)
  end.

(** A well-formed record: five lines, none blank, the last a duration
    that [Song.create] accepts. *)
Definition record (chunk : list str) (song : Song.t) : Prop :=
  ∃ track_no title artist album duration,
    chunk = [track_no; title; artist; album; duration]
    ∧ Forall nonblank chunk
    ∧ Song.create (strip title) (strip artist) (strip album)
                  (Song.RawStr (strip duration)) = Ok song.

Lemma filter_nonblank_all chunk : Forall nonblank chunk → filter nonblank chunk = chunk.
Proof.
  induction 1 as [|line chunk Hline _ IH]; [done|].
  by rewrite filter_cons, decide_True, IH.
Qed.

Lemma record_chunk chunk song :
  record chunk song → length chunk = 5 ∧ chunk_result chunk = Ok song.
Proof.
  intros (track_no & title & artist & album & duration & -> & Hall & Hsong).
  split; [done|]. unfold chunk_result. by rewrite filter_nonblank_all.
Qed.

(** One turn of the loop: the next chunk is the next five lines, or all
    the lines left when there are fewer. *)
Lemma parse_chunks_step chunk rest songs :
  chunk ≠ [] →
  length chunk = 5 ∨ (length chunk < 5 ∧ rest = []) →
  Parser.parse_chunks (chunk ++ rest) songs
  = match chunk_result chunk with
    | Ok song => Parser.parse_chunks rest (songs ++ [song])
    | Raise e => Raise e
    end.
Proof.
  intros Hne Hlen. destruct chunk as [|line chunk]; [done|].
  assert (take 5 ((line :: chunk) ++ rest) = line :: chunk) as Htake.
  { destruct Hlen as [Hlen|[Hlen ->]].
    - by rewrite take_app_length'.
    - rewrite app_nil_r. apply take_ge. lia. }
  assert (drop 5 ((line :: chunk) ++ rest) = rest) as Hdrop.
  { destruct Hlen as [Hlen|[Hlen ->]].
    - by rewrite drop_app_length'.
    - rewrite app_nil_r. apply drop_ge. lia. }
  rewrite <- app_comm_cons. simp parse_chunks.
  rewrite app_comm_cons, Htake, Hdrop. unfold chunk_result.
  destruct (map strip (filter _ (line :: chunk)))
    as [|? [|? [|? [|? [|? [|? ?]]]]]]; done.
Qed.

Lemma parse_chunks_records chunks songs rest acc :
  Forall2 record chunks songs →
  Parser.parse_chunks (concat chunks ++ rest) acc
  = Parser.parse_chunks rest (acc ++ songs).
Proof.
  intros H. revert acc. induction H as [|chunk song chunks songs Hrec _ IH]; intros acc.
  - by rewrite app_nil_r.
  - apply record_chunk in Hrec as [Hlen Hres]. simpl.
    rewrite <- app_assoc, parse_chunks_step; [|by destruct chunk|by left].
    by rewrite Hres, IH, <- app_assoc.
Qed.


(** A line of text with its line ending. *)
Definition line (text : string) : str := lit text ++ [0x0a%N].

Definition two_records : list str :=
  [line "1"; line "Hey Jude"; line "The Beatles"; line "1"; line "7:11";
   line "2"; line "Imagine"; line "John Lennon"; line "Imagine"; line "3:03"].


End FileFacts.

(** ** The lyric cache *)

Module LyricsFacts.
Import Py Parser.

(** The effects of a call: what it added to the trace. *)
Definition new_events (before after : world) : list event :=
  drop (length (trace before)) (trace after).

Definition is_search (e : event) : bool :=
  match e with SearchSong _ _ => true | _ => false end.

Definition is_sleep (e : event) : bool :=
  match e with Sleep _ => true | _ => false end.

Definition is_write (e : event) : bool :=
  match e with WriteText _ _ => true | _ => false end.

(** Every provider call of the trace has [Sleep 15] as the next event. *)
Fixpoint delay_follows_calls (tr : list event) : bool :=
  match tr with
  | [] => true
  | SearchSong _ _ :: tr' =>
      match tr' with
      | Sleep 15 :: _ => delay_follows_calls tr'
      | _ => false
      end
  | _ :: tr' => delay_follows_calls tr'
  end.

Section get_lyrics.
Variables (song : Song.t) (genius : lyricsgenius) (w : world).

Let fname := cache_fname song.
Let title := Song.title song.
Let artist := Song.artist song.

Lemma files_World cache tr : files (World (Some cache) tr) = cache.
Proof. reflexivity. Qed.

Ltac run H :=
  unfold fname, title, artist in *;
  unfold get_lyrics, fetch, try_except, mbind, mkdir, exists_, search_song,
    sleep, print, emit, read_text, write_text, ret;
  cbn [trace lyrics_cache];
  rewrite files_World, H.

(** The four runs of [get_lyrics]. *)
Lemma get_lyrics_hit text :
  files w !! fname = Some text →
  get_lyrics song genius w
  = (Ok text,
     World (Some (files w))
           (trace w ++ [Mkdir; Print (InCache song); ReadText fname])).
Proof.
  intros H. run H. rewrite bool_decide_true by eauto. cbn [trace lyrics_cache].
  rewrite files_World, H. by rewrite <- !app_assoc.
Qed.

Lemma get_lyrics_found found :
  files w !! fname = None →
  genius title artist = Returns (Some found) →
  get_lyrics song genius w
  = (Ok (lyrics found),
     World (Some (<[fname := lyrics found]> (files w)))
           (trace w ++ [Mkdir; SearchSong title artist; Sleep 15;
                        WriteText fname (lyrics found)])).
Proof.
  intros H Hg. run H. rewrite bool_decide_false by (by intros [? ?]).
  rewrite Hg. cbn [trace lyrics_cache]. rewrite files_World.
  by rewrite <- !app_assoc.
Qed.

Lemma get_lyrics_no_match :
  files w !! fname = None →
  genius title artist = Returns None →
  get_lyrics song genius w
  = (Ok [],
     World (Some (files w))
           (trace w ++ [Mkdir; SearchSong title artist; Sleep 15])).
Proof.
  intros H Hg. run H. rewrite bool_decide_false by (by intros [? ?]).
  rewrite Hg. cbn [trace lyrics_cache]. by rewrite <- !app_assoc.
Qed.

Lemma get_lyrics_raises e :
  files w !! fname = None →
  genius title artist = Raises e →
  get_lyrics song genius w
  = (Ok [],
     World (Some (files w))
           (trace w ++ [Mkdir; SearchSong title artist;
                        Print (ErrorFetching song e)])).
Proof.
  intros H Hg. run H. rewrite bool_decide_false by (by intros [? ?]).
  rewrite Hg. cbn [trace lyrics_cache]. by rewrite <- !app_assoc.
Qed.

Lemma new_events_app evs cache :
  new_events w (World cache (trace w ++ evs)) = evs.
Proof. unfold new_events. simpl. by rewrite drop_app_length. Qed.
End get_lyrics.


(** Test doubles. *)
Definition hey_jude : Song.t :=
  Song.Song (lit "Hey Jude") (lit "The Beatles") (lit "1") 431.

Definition no_cache : world := World None [].

Definition warm_cache : world :=
  World (Some {[ lit "the_beatles-hey_jude.txt" := lit "Na na na" ]}) [].

Definition genius_finds : lyricsgenius :=
  fun _ _ => Returns (Some {| lyrics := lit "Hey Jude, don't make it bad" |}).

Definition genius_finds_nothing : lyricsgenius := fun _ _ => Returns None.

Definition genius_times_out : lyricsgenius :=
  fun _ _ => Raises (Exception (lit "Request timed out")).





End LyricsFacts.

(** ** The cache key *)

Module SanitizeFacts.
Import Py Parser.


Definition dotted_I : codepoint := 0x130.

(** The lowercase form of a character other than U+0130. *)
Definition lower1 (c : codepoint) : codepoint := hd c (lower_cp c).

(** What [replace(" ", "_")] and then [lower()] make of one character. *)
Definition slug_char (c : codepoint) : codepoint :=
  lower1 (if (c =? 0x20)%N then 0x5f%N else c).

Lemma lower_cp_single c : c ≠ dotted_I → lower_cp c = [lower1 c].
Proof.
  intros Hc. unfold lower1, lower_cp.
  repeat match goal with
         | |- context [if ?b then _ else _] => destruct b eqn:?
         end; try reflexivity.
  by apply N.eqb_eq in Heqb1.
Qed.

Lemma keeps_below c : _filename_rx_keeps c = true → (c < 0x180)%N.
Proof.
  unfold _filename_rx_keeps, isword, isalnum, isspace, in_ranges, in_range.
  cbn [existsb fst snd].
  rewrite !orb_true_iff, !andb_true_iff, !N.leb_le, !N.eqb_eq. lia.
Qed.

(** The facts about single characters that idempotence rests on, as a
    test over the table. *)
Definition char_ok (c : codepoint) : bool :=
  implb (_filename_rx_keeps c && negb (c =? dotted_I)%N)
        (_filename_rx_keeps (slug_char c)
         && negb (slug_char c =? 0x20)%N
         && negb (slug_char c =? dotted_I)%N
         && bool_decide (lower_cp (slug_char c) = [slug_char c])
         && implb (negb (isspace c)) (negb (isspace (slug_char c)))).

Lemma table_ok : forallb char_ok (map N.of_nat (seq 0 0x180)) = true.
Proof. vm_compute. reflexivity. Qed.

Lemma slug_char_facts c :
  _filename_rx_keeps c = true → c ≠ dotted_I →
  _filename_rx_keeps (slug_char c) = true
  ∧ slug_char c ≠ 0x20%N
  ∧ lower_cp (slug_char c) = [slug_char c]
  ∧ (isspace c = false → isspace (slug_char c) = false).
Proof.
  intros Hk Hc. pose proof (keeps_below c Hk) as Hlt.
  pose proof table_ok as Ht. rewrite forallb_forall in Ht.
  specialize (Ht c). unfold char_ok in Ht. rewrite Hk in Ht.
  destruct (N.eqb_spec c dotted_I) as [?|_]; [done|]. simpl in Ht.
  assert (In c (map N.of_nat (seq 0 384))) as Hin.
  { apply in_map_iff. exists (N.to_nat c). split; [lia|].
    apply in_seq. lia. }
  specialize (Ht Hin).
  rewrite !andb_true_iff, !negb_true_iff, bool_decide_eq_true in Ht.
  destruct Ht as ((((H1 & H2) & _) & H4) & H5).
  repeat split; try done.
  - by apply N.eqb_neq.
  - intros Hs. rewrite Hs in H5. simpl in H5. by apply negb_true_iff.
Qed.

(** Strings that [lstrip] leaves alone. *)
Definition no_lead_space (s : str) : Prop :=
  match s with
  | c :: _ => isspace c = false
  | [] => True
  end.

Lemma lstrip_no_lead_space s : no_lead_space (lstrip s).
Proof.
  induction s as [|c s IH]; simpl; [done|].
  destruct (isspace c) eqn:E; [done|]. by simpl.
Qed.

Lemma lstrip_id s : no_lead_space s → lstrip s = s.
Proof. destruct s as [|c s]; simpl; [done|]. by intros ->. Qed.

Lemma lstrip_suffix s : ∃ pre, s = pre ++ lstrip s.
Proof.
  induction s as [|c s [pre IH]]; simpl; [by exists []|].
  destruct (isspace c); [|by exists []].
  exists (c :: pre). simpl. by f_equal.
Qed.

Lemma no_lead_space_app s s' : no_lead_space s → s ≠ [] → no_lead_space (s ++ s').
Proof. by destruct s. Qed.

(** [strip] leaves a string that has no space at either end. *)
Lemma strip_ends s : no_lead_space (strip s) ∧ no_lead_space (rev (strip s)).
Proof.
  unfold strip, rstrip. split; [|rewrite rev_involutive; apply lstrip_no_lead_space].
  pose proof (lstrip_no_lead_space s) as H.
  destruct (lstrip_suffix (rev (lstrip s))) as [pre Hpre].
  apply (f_equal (@rev _)) in Hpre. rewrite rev_involutive, rev_app_distr in Hpre.
  destruct (rev (lstrip (rev (lstrip s)))) as [|c r] eqn:E; [done|].
  rewrite Hpre in H. done.
Qed.

Lemma strip_id s : no_lead_space s → no_lead_space (rev s) → strip s = s.
Proof.
  intros H1 H2. unfold strip, rstrip.
  by rewrite (lstrip_id s), (lstrip_id (rev s)), rev_involutive.
Qed.

Lemma Forall_lstrip (P : codepoint → Prop) s : Forall P s → Forall P (lstrip s).
Proof.
  induction 1 as [|c s Hc Hs IH]; simpl; [done|].
  destruct (isspace c); [done|]. by constructor.
Qed.

Lemma Forall_strip (P : codepoint → Prop) s : Forall P s → Forall P (strip s).
Proof.
  intros H. unfold strip, rstrip.
  apply Forall_rev, Forall_lstrip, Forall_rev. by apply Forall_lstrip.
Qed.

(** The kept characters of a text, stripped: what [replace] and [lower]
    then work on. *)
Definition stem (text : str) : str :=
  strip (filter (fun c => _filename_rx_keeps c = true) text).

Definition tame (c : codepoint) : Prop :=
  _filename_rx_keeps c = true ∧ c ≠ dotted_I.

Lemma stem_tame text : dotted_I ∉ text → Forall tame (stem text).
Proof.
  intros H. apply Forall_strip, Forall_forall. intros c Hc.
  apply list_elem_of_filter in Hc as [Hk Hc]. split; [done|].
  by intros ->.
Qed.

Lemma lower_map s : Forall (fun c => c ≠ dotted_I) s → lower s = map lower1 s.
Proof.
  unfold lower. induction 1 as [|c s Hc _ IH]; simpl; [done|].
  by rewrite lower_cp_single, IH.
Qed.

Lemma sanitize_map text :
  dotted_I ∉ text → _sanitize text = map slug_char (stem text).
Proof.
  intros H. unfold _sanitize. fold (stem text).
  pose proof (stem_tame text H) as Ht.
  rewrite lower_map.
  - unfold replace. by rewrite map_map.
  - unfold replace. apply Forall_map. eapply Forall_impl; [exact Ht|].
    intros c [_ Hc]. simpl. by destruct (c =? 32)%N.
Qed.

Lemma filter_id (P : codepoint → Prop) `{!∀ c, Decision (P c)} (s : str) :
  Forall P s → filter P s = s.
Proof.
  induction 1 as [|c s Hc _ IH]; [done|].
  by rewrite filter_cons, decide_True, IH.
Qed.

(** A string of slug characters, with no space at its ends, is its own
    slug. *)
Lemma sanitize_fixed s :
  Forall tame s → no_lead_space s → no_lead_space (rev s) →
  _sanitize (map slug_char s) = map slug_char s.
Proof.
  intros Ht H1 H2.
  assert (Forall (fun c => _filename_rx_keeps c = true ∧ c ≠ 0x20%N
                           ∧ lower_cp c = [c]) (map slug_char s)) as Hall.
  { apply Forall_map. eapply Forall_impl; [exact Ht|].
    intros c [Hk Hc]. simpl.
    by destruct (slug_char_facts c Hk Hc) as (? & ? & ? & _). }
  assert (∀ l, Forall tame l → no_lead_space l → no_lead_space (map slug_char l))
    as Hlead.
  { intros [|c l] Hl; simpl; [done|]. apply Forall_cons in Hl as [[Hk Hc] _].
    by apply slug_char_facts. }
  unfold _sanitize.
  rewrite filter_id;
    [|eapply Forall_impl; [exact Hall|]; by intros c (? & _)].
  rewrite strip_id;
    [|by apply Hlead|rewrite <- map_rev; apply Hlead; [by apply Forall_rev|done]].
  clear H1 H2 Hlead Ht. unfold replace, lower.
  induction Hall as [|c l (_ & Hc & Hl) _ IH]; simpl; [done|].
  destruct (N.eqb_spec c 32) as [?|_]; [done|].
  rewrite Hl. simpl. by rewrite IH.
Qed.



End SanitizeFacts.

(** ** The lyric cache across calls *)

Module CacheFacts.
Import Py Parser LyricsFacts.







(** The hyphen between artist and title may come from either: "Jay-Z" with
    "Encore", and "Jay" with "Z-Encore". *)
Definition encore : Song.t := Song.Song (lit "Encore") (lit "Jay-Z") (lit "x") 200.
Definition z_encore : Song.t := Song.Song (lit "Z-Encore") (lit "Jay") (lit "y") 100.


End CacheFacts.

(** ** The alphabet of a cache key *)

Module SlugFacts.
Import Py Parser SanitizeFacts.

Definition slash : codepoint := 0x2f.
Definition backslash : codepoint := 0x5c.
Definition blank : codepoint := 0x20.
Definition combining_dot : codepoint := 0x307.

(** The characters a slug is made of. *)
Definition slug_letter (c : codepoint) : Prop :=
  (_filename_rx_keeps c = true ∧ c ≠ blank) ∨ c = combining_dot.

Lemma stem_kept text : Forall (fun c => _filename_rx_keeps c = true) (stem text).
Proof.
  apply Forall_strip, Forall_forall. intros c Hc.
  by apply list_elem_of_filter in Hc as [Hk _].
Qed.

Lemma lower_cp_slug_letters c :
  _filename_rx_keeps c = true → c ≠ blank → Forall slug_letter (lower_cp c).
Proof.
  intros Hk Hb. destruct (decide (c = dotted_I)) as [->|Hc].
  - change (Forall slug_letter [0x69; 0x307]%N).
    apply Forall_cons. split; [by left|].
    apply Forall_cons. split; [by right|constructor].
  - rewrite lower_cp_single by done.
    apply Forall_cons. split; [|constructor]. left.
    destruct (slug_char_facts c Hk Hc) as (H1 & H2 & _).
    unfold slug_char in H1, H2. unfold blank in *.
    destruct (N.eqb_spec c 32); done.
Qed.


(** The facts about lowercase forms that make the slug blind to case, as
    a test over the table. *)
Definition case_ok (c : codepoint) : bool :=
  implb (negb (c =? dotted_I)%N)
        (Bool.eqb (_filename_rx_keeps (lower1 c)) (_filename_rx_keeps c)
         && Bool.eqb (isspace (lower1 c)) (isspace c)
         && Bool.eqb (lower1 c =? blank)%N (c =? blank)%N
         && (lower1 (lower1 c) =? lower1 c)%N
         && negb (lower1 c =? dotted_I)%N
         && (lower1 c <? 0x180)%N).

Lemma case_table_ok : forallb case_ok (map N.of_nat (seq 0 0x180)) = true.
Proof. vm_compute. reflexivity. Qed.

(** The characters of the table, U+0130 left out. *)
Definition plain (c : codepoint) : Prop := (c < 0x180)%N ∧ c ≠ dotted_I.

Lemma lower1_facts c :
  plain c →
  _filename_rx_keeps (lower1 c) = _filename_rx_keeps c
  ∧ isspace (lower1 c) = isspace c
  ∧ (lower1 c = blank ↔ c = blank)
  ∧ lower1 (lower1 c) = lower1 c
  ∧ plain (lower1 c).
Proof.
  intros [Hlt Hc]. pose proof case_table_ok as Ht.
  rewrite forallb_forall in Ht. specialize (Ht c).
  assert (In c (map N.of_nat (seq 0 384))) as Hin.
  { apply in_map_iff. exists (N.to_nat c). split; [lia|]. apply in_seq. lia. }
  specialize (Ht Hin). unfold case_ok in Ht.
  destruct (N.eqb_spec c dotted_I) as [?|_]; [done|]. simpl in Ht.
  rewrite !andb_true_iff, negb_true_iff in Ht.
  destruct Ht as (((((H1 & H2) & H3) & H4) & H5) & H6).
  apply Bool.eqb_prop in H1, H2, H3.
  apply N.eqb_eq in H4. apply N.eqb_neq in H5. apply N.ltb_lt in H6.
  repeat split; try done.
  - intros Hl. apply N.eqb_eq. rewrite <- H3. by apply N.eqb_eq.
  - intros Hb. apply N.eqb_eq. rewrite H3. by apply N.eqb_eq.
Qed.

Lemma filter_lower s :
  Forall plain s →
  filter (fun c => _filename_rx_keeps c = true) (map lower1 s)
  = map lower1 (filter (fun c => _filename_rx_keeps c = true) s).
Proof.
  induction 1 as [|c s Hc _ IH]; [done|]. simpl.
  rewrite !filter_cons, IH. destruct (lower1_facts c Hc) as (-> & _).
  by destruct (decide (_filename_rx_keeps c = true)).
Qed.

Lemma lstrip_lower s : Forall plain s → lstrip (map lower1 s) = map lower1 (lstrip s).
Proof.
  induction 1 as [|c s Hc _ IH]; [done|]. simpl.
  destruct (lower1_facts c Hc) as (_ & -> & _). by destruct (isspace c).
Qed.

Lemma strip_lower s : Forall plain s → strip (map lower1 s) = map lower1 (strip s).
Proof.
  intros H. unfold strip, rstrip.
  rewrite lstrip_lower, <- map_rev, lstrip_lower, map_rev; [done| |done].
  by apply Forall_rev, Forall_lstrip.
Qed.

Lemma replace_lower s :
  Forall plain s →
  replace 0x20 0x5f (map lower1 s) = map lower1 (replace 0x20 0x5f s).
Proof.
  induction 1 as [|c s Hc _ IH]; [done|]. unfold replace in *. simpl.
  rewrite IH. f_equal. destruct (lower1_facts c Hc) as (_ & _ & Hb & _).
  unfold blank in Hb.
  destruct (N.eqb_spec (lower1 c) 32) as [H1|H1], (N.eqb_spec c 32) as [H2|H2];
    try done.
  - by apply Hb in H1.
  - by apply Hb in H2.
Qed.

Lemma plain_not_dotted s : Forall plain s → Forall (fun c => c ≠ dotted_I) s.
Proof. intros H. eapply Forall_impl; [exact H|]. by intros c [_ ?]. Qed.

(** The docstring's "case-insensitive": over the characters of the table,
    U+0130 left out, a text and its lowercase form have the same slug. *)
Theorem sanitize_case_insensitive (text : str) :
  Forall plain text → _sanitize (lower text) = _sanitize text.
Proof.
  intros H. rewrite (lower_map text) by by apply plain_not_dotted.
  unfold _sanitize.
  assert (Forall plain (filter (fun c => _filename_rx_keeps c = true) text)) as Hf.
  { apply Forall_forall. intros c Hc. apply list_elem_of_filter in Hc as [_ Hc].
    rewrite Forall_forall in H. by apply H. }
  assert (Forall plain (strip (filter (fun c => _filename_rx_keeps c = true) text)))
    as Hs by by apply Forall_strip.
  assert (Forall plain
            (replace 32 95 (strip (filter (fun c => _filename_rx_keeps c = true) text))))
    as Hr.
  { unfold replace. apply Forall_map. eapply Forall_impl; [exact Hs|].
    intros c Hc. simpl. by destruct (c =? 32)%N. }
  rewrite filter_lower, strip_lower, replace_lower by done.
  rewrite !lower_map; [| by apply plain_not_dotted |].
  - rewrite map_map. apply map_ext_Forall.
    eapply Forall_impl; [exact Hr|]. intros c Hc.
    by destruct (lower1_facts c Hc) as (_ & _ & _ & ? & _).
  - apply Forall_map. eapply Forall_impl; [exact Hr|]. intros c Hc. simpl.
    by destruct (lower1_facts c Hc) as (_ & _ & _ & _ & [_ ?]).
Qed.

Lemma sanitize_case_insensitive_witness :
  _sanitize (lower (lit "The BEATLES")) = _sanitize (lit "The BEATLES").
Proof.
  apply sanitize_case_insensitive.
  apply (bool_decide_unpack _). vm_compute. exact I.
Defined.

End SlugFacts.

(** ** More on the intersection *)

Module IntersectionMore.
Import Py IntersectionFacts.

Lemma elem_of_comprehension (A B : list Song.t) (s : Song.t) :
  s ∈ comprehension A B ↔ s ∈ A ∧ ∃ b, b ∈ B ∧ Song.__eq__ s b = true.
Proof.
  unfold comprehension. rewrite list_elem_of_bind. split.
  - intros (a & Hs & Ha). apply list_elem_of_bind in Hs as (b & Hs & Hb).
    destruct (Song.__eq__ a b) eqn:E; [|by apply elem_of_nil in Hs].
    apply list_elem_of_singleton in Hs as ->. eauto.
  - intros (Ha & b & Hb & E). exists s. split; [|done].
    apply list_elem_of_bind. exists b. split; [|done].
    rewrite E. by apply list_elem_of_singleton.
Qed.

Lemma intersection_as_comprehension (A B : Playlist.t) :
  Playlist.songs (Parser.playlist_intersection A B)
  = comprehension (Playlist.songs A) (Playlist.songs B).
Proof.
  unfold Parser.playlist_intersection, Playlist.__iter__. simpl.
  by rewrite outer_loop.
Qed.

(** A song is in the intersection exactly when it is a song of the first
    playlist that equals some song of the second. *)
Theorem playlist_intersection_elem (A B : Playlist.t) (s : Song.t) :
  s ∈ Playlist.songs (Parser.playlist_intersection A B)
  ↔ s ∈ Playlist.songs A
    ∧ ∃ b, b ∈ Playlist.songs B ∧ Song.__eq__ s b = true.
Proof.
  rewrite intersection_as_comprehension. apply elem_of_comprehension.
Qed.

Lemma length_comprehension (A B : list Song.t) :
  length (comprehension A B) = sum_list (map (fun a => length (partners a B)) A).
Proof.
  rewrite comprehension_grouped. induction A as [|a A IH]; [done|].
  rewrite bind_cons, length_app, length_replicate, IH. done.
Qed.

Lemma length_partners a (B : list Song.t) : length (partners a B) ≤ length B.
Proof. apply length_filter. Qed.

Lemma sum_partners_le (A B : list Song.t) :
  (∀ a, a ∈ A → length (partners a B) ≤ 1) →
  sum_list (map (fun a => length (partners a B)) A) ≤ length A.
Proof.
  induction A as [|a A IH]; intros H; simpl; [lia|].
  assert (length (partners a B) ≤ 1) by (apply H; left).
  assert (sum_list (map (fun a => length (partners a B)) A) ≤ length A).
  { apply IH. intros a' Ha'. apply H. by right. }
  lia.
Qed.

(** The length of the intersection is the number of matching pairs: the
    sum, over the songs of the first playlist, of the number of songs of the
    second it equals.  It is at most the product of the two lengths, and at
    most the length of the first playlist when none of its songs equals two
    songs of the second. *)
Theorem playlist_intersection_len (A B : Playlist.t) :
  let n := Playlist.__len__ (Parser.playlist_intersection A B) in
  n = sum_list (map (fun a => length (partners a (Playlist.songs B)))
                    (Playlist.songs A))
  ∧ n ≤ Playlist.__len__ A * Playlist.__len__ B
  ∧ ((∀ a, a ∈ Playlist.songs A → length (partners a (Playlist.songs B)) ≤ 1) →
     n ≤ Playlist.__len__ A).
Proof.
  intros n. subst n. unfold Playlist.__len__.
  rewrite intersection_as_comprehension, length_comprehension. split; [done|].
  generalize (Playlist.songs B) as sB. generalize (Playlist.songs A) as sA.
  intros sA sB. split.
  - induction sA as [|a sA IH]; simpl; [lia|].
    pose proof (length_partners a sB). lia.
  - apply sum_partners_le.
Qed.

Lemma playlist_intersection_len_witness :
  let X := EqualityFacts.titled "Hey Jude" in
  let Y := EqualityFacts.titled "Yesterday" in
  let X' := EqualityFacts.titled "Hey Jude!" in
  let Z := EqualityFacts.titled "Imagine" in
  let A := Playlist.__init__ [X; Y] (lit "a") in
  let B := Playlist.__init__ [X'; Z] (lit "b") in
  Playlist.__len__ (Parser.playlist_intersection A B) ≤ Playlist.__len__ A.
Proof.
  intros X Y X' Z A B.
  destruct (playlist_intersection_len A B) as (_ & _ & H). apply H.
  intros a Ha.
  apply elem_of_cons in Ha as [->|Ha]; [vm_compute; lia|].
  apply elem_of_cons in Ha as [->|Ha]; [vm_compute; lia|].
  by apply elem_of_nil in Ha.
Defined.

(** The numbers [visualize_intersection_venn] draws, for two playlists and
    their intersection: the first circle's own part is not negative when no
    song of the first playlist equals two songs of the second; it is
    negative as soon as the intersection is longer than the first
    playlist, as for [[X]] against [[X1, X2]] with [X] equal to both. *)
Theorem venn_of_intersection (A B : Playlist.t) :
  let inter := Parser.playlist_intersection A B in
  let '(only_s1, only_s2, both) :=
    Charts.visualize_intersection_venn (Charts.len A) (Charts.len B) (Charts.len inter) in
  (only_s1 + both = Charts.len A)%Z ∧ (only_s2 + both = Charts.len B)%Z
  ∧ ((∀ a, a ∈ Playlist.songs A → length (partners a (Playlist.songs B)) ≤ 1) →
     (0 ≤ only_s1)%Z)
  ∧ (∀ X X1 X2, Playlist.songs A = [X] → Playlist.songs B = [X1; X2] →
       Song.__eq__ X X1 = true → Song.__eq__ X X2 = true →
       only_s1 = (-1)%Z ∧ only_s2 = 0%Z).
Proof.
  intros inter. unfold Charts.visualize_intersection_venn.
  split; [lia|]. split; [lia|]. split.
  - intros H. unfold Charts.len, inter, Playlist.__len__.
    rewrite intersection_as_comprehension, length_comprehension.
    pose proof (sum_partners_le (Playlist.songs A) (Playlist.songs B) H). lia.
  - intros X X1 X2 HA HB H1 H2.
    unfold Charts.len, inter, Playlist.__len__.
    rewrite intersection_as_comprehension, length_comprehension, HA, HB.
    unfold partners. simpl. rewrite !filter_cons, !decide_True by done.
    simpl. lia.
Qed.

Lemma venn_of_intersection_witness :
  let X := EqualityFacts.titled "Love Song" in
  let X1 := EqualityFacts.titled "Love Songs" in
  let X2 := EqualityFacts.titled "Lover Song" in
  let A := Playlist.__init__ [X] (lit "a") in
  let B := Playlist.__init__ [X1; X2] (lit "b") in
  Charts.visualize_intersection_venn
    (Charts.len A) (Charts.len B) (Charts.len (Parser.playlist_intersection A B))
  = ((-1)%Z, 0%Z, 2%Z).
Proof.
  intros X X1 X2 A B.
  pose proof (venn_of_intersection A B) as H.
  unfold Charts.visualize_intersection_venn in *.
  destruct H as (H1 & H2 & _ & H).
  destruct (H X X1 X2) as [Ha Hb]; [reflexivity..|].
  rewrite Ha, Hb. reflexivity.
Defined.

End IntersectionMore.

(** ** Reflexivity of song equality *)

Module ReflexiveFacts.
Import Py Difflib.

(** [b2j] before the popular elements are purged. *)
Definition positions (b : str) : gmap codepoint (list nat) :=
  fold_left
    (fun (m : gmap codepoint (list nat)) '(i, elt) =>
       <[elt := default [] (m !! elt) ++ [i]]> m)
    (imap pair b) ∅.

Lemma chain_b_short b : length b < 200 → chain_b b = positions b.
Proof.
  intros H. unfold chain_b. fold (positions b).
  destruct (Nat.leb_spec 200 (length b)); [lia|]. by rewrite andb_false_r.
Qed.

Lemma positions_snoc b e :
  positions (b ++ [e])
  = <[e := default [] (positions b !! e) ++ [length b]]> (positions b).
Proof.
  unfold positions. rewrite imap_app, fold_left_app. simpl.
  by rewrite Nat.add_0_r.
Qed.

(** [b2j[x]] lists the places of [x] in [b]. *)
Lemma positions_elem b x j :
  j ∈ default [] (positions b !! x) ↔ b !! j = Some x.
Proof.
  induction b as [|e b IH] using rev_ind.
  - unfold positions. simpl. rewrite lookup_empty. simpl.
    split; [by intros ?%elem_of_nil|done].
  - rewrite positions_snoc. destruct (decide (e = x)) as [->|Hne].
    + rewrite lookup_insert_eq. simpl. rewrite elem_of_app, IH, list_elem_of_singleton.
      split.
      * intros [H| ->]; [by apply lookup_app_l_Some|].
        by rewrite lookup_app_r, Nat.sub_diag.
      * intros H. destruct (decide (j < length b)) as [Hlt|Hge].
        -- left. by rewrite lookup_app_l in H.
        -- right. apply lookup_lt_Some in H. rewrite length_app in H. simpl in H. lia.
    + rewrite lookup_insert_ne by done. rewrite IH. split.
      * intros H. by apply lookup_app_l_Some.
      * intros H. destruct (decide (j < length b)) as [Hlt|Hge].
        -- by rewrite lookup_app_l in H.
        -- rewrite lookup_app_r in H by lia.
           destruct (j - length b) as [|?]; simpl in H; [congruence|done].
Qed.

Section same_sequence.
Variables (a : str).
Let n := length a.

(** The state of [j2len] on entering row [i] when [a] is matched against
    itself: the diagonal entry is [i], and no entry exceeds the row or the
    column. *)
Definition row_inv (i : nat) (j2len : gmap nat nat) : Prop :=
  j2lenget j2len i = i ∧ ∀ j, j2lenget j2len j ≤ i ∧ j2lenget j2len j ≤ j.

(** The best block on entering row [i]: as long as the rows seen. *)
Definition best_inv (i : nat) (best : Match) : Prop :=
  size best = i ∧ best.1.1 + size best ≤ i ∧ best.1.2 + size best ≤ n.

Section row.
Variables (i : nat) (j2len : gmap nat nat).
Hypothesis Hrow : row_inv i j2len.

Definition canonical (newj2len : gmap nat nat) : Prop :=
  ∀ j v, newj2len !! j = Some v → v = j2lenget j2len j + 1.

Definition during (best : Match) : Prop :=
  best.1.1 + size best ≤ i + 1 ∧ best.1.2 + size best ≤ n
  ∧ i ≤ size best ≤ i + 1.

Lemma scan_positions_same js : ∀ newj2len best,
  (∀ j, j ∈ js → j < n) → canonical newj2len → during best →
  canonical (scan_positions 0 n i j2len js newj2len best).1
  ∧ (∀ j, j ∈ js ∨ is_Some (newj2len !! j) →
          is_Some ((scan_positions 0 n i j2len js newj2len best).1 !! j))
  ∧ during (scan_positions 0 n i j2len js newj2len best).2
  ∧ (i ∈ js ∨ size best = i + 1 →
     size (scan_positions 0 n i j2len js newj2len best).2 = i + 1).
Proof.
  induction js as [|j js IH]; intros newj2len best Hjs Hnew Hbest.
  - simpl. repeat split; try done; try apply Hbest.
    + intros j [H|H]; [by apply elem_of_nil in H|done].
    + intros [H|H]; [by apply elem_of_nil in H|done].
  - simpl. assert (j < n) as Hj by (apply Hjs; left).
    destruct (Nat.leb_spec n j) as [?|_]; [lia|].
    destruct Hrow as [Hdiag Hbound]. destruct (Hbound j) as [Hk1 Hk2].
    set (k := j2lenget j2len j + 1) in *.
    set (best' := if size best <? k then (i + 1 - k, j + 1 - k, k) else best).
    assert (during best') as Hbest'.
    { unfold best'. destruct (Nat.ltb_spec (size best) k) as [Hlt|_]; [|done].
      destruct Hbest as (_ & _ & Hs). unfold during, size. simpl. lia. }
    assert (canonical (<[j := k]> newj2len)) as Hnew'.
    { intros j' v. destruct (decide (j = j')) as [<-|Hne].
      - rewrite lookup_insert_eq. by intros [= <-].
      - rewrite lookup_insert_ne by done. apply Hnew. }
    destruct (IH (<[j := k]> newj2len) best') as (H1 & H2 & H3 & H4);
      [intros j' Hj'; apply Hjs; by right|done|done|].
    repeat split; try done; try apply H3.
    + intros j' [Hj'|Hj'].
      * apply elem_of_cons in Hj' as [->|Hj']; [|by apply H2; left].
        apply H2. right. rewrite lookup_insert_eq. by eexists.
      * apply H2. right. destruct (decide (j = j')) as [<-|Hne].
        -- rewrite lookup_insert_eq. by eexists.
        -- by rewrite lookup_insert_ne.
    + intros Hi. apply H4.
      assert (i = j ∨ i ∈ js ∨ size best = i + 1) as [<-|[?|Hs]].
      { destruct Hi as [Hi|?]; [|by right; right].
        apply elem_of_cons in Hi as [?|?]; [by left|by right; left]. }
      * right. unfold best', k. rewrite Hdiag.
        destruct Hbest as (_ & _ & Hs).
        destruct (Nat.ltb_spec (size best) (i + 1)); [done|lia].
      * by left.
      * right. unfold best'. destruct (Nat.ltb_spec (size best) k); [|done].
        unfold k in *. lia.
Qed.
End row.

Hypothesis short : n < 200.

Lemma scan_row_same i st :
  i < n → row_inv i st.1 → best_inv i st.2 →
  row_inv (S i) (scan_row a (chain_b a) 0 n st i).1
  ∧ best_inv (S i) (scan_row a (chain_b a) 0 n st i).2.
Proof.
  intros Hi Hrow (Hsize & Hbi & Hbj). unfold scan_row.
  destruct (a !! i) as [elt|] eqn:Ha; [|apply lookup_ge_None in Ha; unfold n in *; exfalso; clear -Hi Ha; lia].
  rewrite chain_b_short by done.
  destruct (scan_positions_same i st.1 Hrow (default [] (positions a !! elt)) ∅ st.2)
    as (H1 & H2 & H3 & H4).
  - intros j Hj. apply positions_elem in Hj. by apply lookup_lt_Some in Hj.
  - intros j v. by rewrite lookup_empty.
  - unfold during. lia.
  - destruct Hrow as [Hdiag Hbound]. split; [split|].
    + simpl. destruct (H2 i) as [v Hv]; [left; by apply positions_elem|].
      rewrite Hv. simpl. apply H1 in Hv. lia.
    + intros [|j]; simpl; [lia|].
      destruct (_ !! j) as [v|] eqn:Hv; simpl; [|lia].
      apply H1 in Hv. destruct (Hbound j). lia.
    + destruct H3 as (? & ? & ?). unfold best_inv.
      rewrite H4 in * by (left; by apply positions_elem). lia.
Qed.

Lemma scan_rows_same k : ∀ i st,
  i + k ≤ n → row_inv i st.1 → best_inv i st.2 →
  best_inv (i + k) (fold_left (scan_row a (chain_b a) 0 n) (seq i k) st).2.
Proof.
  induction k as [|k IH]; intros i st Hk Hrow Hbest; simpl.
  - by rewrite Nat.add_0_r.
  - destruct (scan_row_same i st) as [H1 H2]; [lia|done|done|].
    replace (i + S k) with (S i + k) by lia. apply IH; [lia|done|done].
Qed.

(** Against itself, a sequence is one block. *)
Lemma find_longest_match_same :
  find_longest_match a a (chain_b a) 0 n 0 n = (0, 0, n).
Proof.
  unfold find_longest_match. rewrite Nat.sub_0_r.
  pose proof (scan_rows_same n 0 (∅, (0, 0, 0))) as H. simpl in H.
  destruct H as (Hs & Hi & Hj);
    [done
    |split; [done|intros [|j]; simpl; rewrite ?lookup_empty; simpl; lia]
    |unfold best_inv, size; simpl; lia|].
  destruct (fold_left (scan_row a (chain_b a) 0 n) (seq 0 n) (∅, (0, 0, 0))).2
    as [[besti bestj] bestsize].
  unfold size in *. simpl in *.
  assert (besti = 0) as -> by lia. assert (bestj = 0) as -> by lia. subst bestsize.
  unfold extend. simpl. rewrite Nat.sub_diag. simpl. by rewrite Nat.sub_diag.
Qed.

Lemma get_matching_blocks_same :
  matches a a = n.
Proof.
  unfold matches, get_matching_blocks, blocks_fuel. fold n.
  replace (2 * n + 1) with (S (2 * n)) by lia. simpl blocks_loop.
  rewrite find_longest_match_same.
  destruct (Nat.eqb_spec n 0) as [Hn|Hn].
  - rewrite Hn. by destruct (2 * 0).
  - change (0 + n) with n. rewrite Nat.ltb_irrefl. simpl.
    assert (∀ fuel blocks, blocks_loop a a (chain_b a) fuel [] blocks = blocks)
      as -> by by intros [|fuel] blocks.
    cbn. destruct (Nat.eqb_spec n 0); [done|]. cbn. lia.
Qed.

End same_sequence.

Lemma ratio_of_full_match :
  forallb (fun n => PrimFloat.leb Song.threshold (_calculate_ratio n (n + n)))
          (seq 0 200) = true.
Proof. vm_compute. reflexivity. Qed.

Lemma eq_reflexive_songs (s : Song.t) :
  length (EqualityFacts.key s) < 200 → Song.__eq__ s s = true.
Proof.
  intros H. unfold Song.__eq__, ratio. fold (EqualityFacts.key s).
  rewrite get_matching_blocks_same by done.
  pose proof ratio_of_full_match as Hr. rewrite forallb_forall in Hr.
  apply Hr, in_seq. lia.
Qed.

(** [__eq__] is reflexive on the songs whose title, lowercased, has fewer
    than 200 characters: the matcher finds the whole title as one block
    and the ratio is 1. *)
Theorem eq_reflexive (s : Song.t) :
  length (EqualityFacts.key s) < 200 →
  Difflib.matches (EqualityFacts.key s) (EqualityFacts.key s)
  = length (EqualityFacts.key s)
  ∧ Song.__eq__ s s = true.
Proof.
  intros H. split; [by apply get_matching_blocks_same|by apply eq_reflexive_songs].
Qed.

Lemma eq_reflexive_witness :
  Song.__eq__ (EqualityFacts.titled "Hey Jude") (EqualityFacts.titled "Hey Jude") = true.
Proof. apply eq_reflexive. vm_compute. lia. Defined.


End ReflexiveFacts.

(** ** A playlist against itself *)

Module SelfIntersection.
Import Py IntersectionFacts IntersectionMore.

(** A playlist whose titles are shorter than 200 characters is contained
    in its intersection with itself, which is at least as long. *)
Theorem playlist_self_intersection (A : Playlist.t) :
  (∀ s, s ∈ Playlist.songs A → length (EqualityFacts.key s) < 200) →
  (∀ s, s ∈ Playlist.songs A →
        s ∈ Playlist.songs (Parser.playlist_intersection A A))
  ∧ Playlist.__len__ A ≤ Playlist.__len__ (Parser.playlist_intersection A A).
Proof.
  intros Hshort. split.
  - intros s Hs. rewrite intersection_as_comprehension.
    apply elem_of_comprehension. split; [done|]. exists s. split; [done|].
    by apply ReflexiveFacts.eq_reflexive_songs, Hshort.
  - unfold Playlist.__len__.
    rewrite intersection_as_comprehension, length_comprehension.
    assert (∀ l : list Song.t,
              (∀ s, s ∈ l → s ∈ Playlist.songs A) →
              length l
              ≤ sum_list (map (fun a => length (partners a (Playlist.songs A))) l))
      as Hsum.
    { induction l as [|a l IH]; intros Hl; simpl; [lia|].
      assert (a ∈ partners a (Playlist.songs A)) as Ha.
      { apply list_elem_of_filter. split; [|apply Hl; left].
        apply ReflexiveFacts.eq_reflexive_songs, Hshort, Hl. left. }
      assert (0 < length (partners a (Playlist.songs A)))
        by (destruct (partners a (Playlist.songs A)); [by apply elem_of_nil in Ha|simpl; lia]).
      assert (length l
              ≤ sum_list (map (fun a => length (partners a (Playlist.songs A))) l))
        by (apply IH; intros s Hs; apply Hl; by right).
      lia. }
    by apply Hsum.
Qed.

Lemma playlist_self_intersection_witness :
  let A := Playlist.__init__
             [EqualityFacts.titled "Hey Jude"; EqualityFacts.titled "Imagine"]
             (lit "a") in
  Playlist.__len__ A ≤ Playlist.__len__ (Parser.playlist_intersection A A).
Proof.
  intros A. apply (playlist_self_intersection A).
  intros s Hs.
  apply elem_of_cons in Hs as [->|Hs]; [vm_compute; lia|].
  apply elem_of_cons in Hs as [->|Hs]; [vm_compute; lia|].
  by apply elem_of_nil in Hs.
Defined.

End SelfIntersection.

(** ** Which files the flat-file adapter accepts *)

Module FileMore.
Import Py PyFacts SongFacts FileFacts.

Lemma filter_length_all (chunk : list str) :
  length (filter nonblank chunk) = length chunk → Forall nonblank chunk.
Proof.
  induction chunk as [|line chunk IH]; [done|].
  rewrite filter_cons. destruct (decide (nonblank line)) as [Hl|Hl]; simpl.
  - intros [= H]. constructor; [done|by apply IH].
  - intros H. pose proof (length_filter nonblank chunk). lia.
Qed.

(** A chunk the loop body accepts is a well-formed record. *)
Lemma chunk_result_ok chunk song :
  length chunk ≤ 5 → chunk_result chunk = Ok song → record chunk song.
Proof.
  intros Hlen. unfold chunk_result.
  destruct (map strip (filter nonblank chunk))
    as [|track_no [|title [|artist [|album [|duration [|? ?]]]]]] eqn:Hmap; try done.
  intros Hsong.
  assert (length (filter nonblank chunk) = 5) as Hfive
    by by rewrite <- (length_map strip), Hmap.
  pose proof (length_filter nonblank chunk) as Hle.
  assert (Forall nonblank chunk) as Hall by (apply filter_length_all; lia).
  rewrite filter_nonblank_all in Hmap by done.
  destruct chunk as [|l1 [|l2 [|l3 [|l4 [|l5 [|? ?]]]]]]; try done.
  injection Hmap as <- <- <- <- <-.
  by exists l1, l2, l3, l4, l5.
Qed.

Lemma chunk_result_raise chunk e :
  chunk_result chunk = Raise e → ∃ message values, e = ValueError message values.
Proof.
  unfold chunk_result, Song.create.
  destruct (map strip (filter nonblank chunk))
    as [|track_no [|title [|artist [|album [|duration [|? ?]]]]]];
    try (intros [= <-]; eauto).
  destruct (Song._parse_duration (Song.RawStr duration)) as [d|e'] eqn:E; [done|].
  simpl. intros [= <-]. by apply parse_duration_raise in E.
Qed.

Lemma parse_chunks_inv : ∀ m f acc,
  length f ≤ m →
  match Parser.parse_chunks f acc with
  | Ok songs =>
      ∃ chunks new, f = concat chunks ∧ Forall2 record chunks new ∧ songs = acc ++ new
  | Raise e => ∃ message values, e = ValueError message values
  end.
Proof.
  induction m as [|m IH]; intros f acc Hm.
  - destruct f; [|simpl in Hm; lia]. simp parse_chunks.
    exists [], []. by rewrite app_nil_r.
  - destruct f as [|line f'].
    { simp parse_chunks. exists [], []. by rewrite app_nil_r. }
    set (f := line :: f') in *.
    assert (length (take 5 f) = 5 ∨ (length (take 5 f) < 5 ∧ drop 5 f = [])) as Hlen.
    { rewrite length_take. destruct (decide (5 ≤ length f)); [left; lia|right].
      split; [lia|]. apply drop_ge. lia. }
    rewrite <- (take_drop 5 f),
      (parse_chunks_step (take 5 f) (drop 5 f) acc) by done.
    destruct (chunk_result (take 5 f)) as [song|e] eqn:Hres;
      [|by apply chunk_result_raise in Hres].
    apply chunk_result_ok in Hres; [|rewrite length_take; lia].
    specialize (IH (drop 5 f) (acc ++ [song])).
    destruct (Parser.parse_chunks (drop 5 f) (acc ++ [song])) as [songs|e].
    + destruct IH as (chunks & new & Hf & Hrec & ->).
      { rewrite length_drop. simpl in Hm. unfold f. simpl. lia. }
      exists (take 5 f :: chunks), (song :: new). simpl.
      rewrite <- Hf. split; [done|]. split; [by constructor|].
      by rewrite <- app_assoc.
    + apply IH. rewrite length_drop. simpl in Hm. unfold f. simpl. lia.
Qed.

Lemma records_lines chunks songs :
  Forall2 record chunks songs →
  Forall nonblank (concat chunks) ∧ length (concat chunks) = 5 * length songs.
Proof.
  induction 1 as [|chunk song chunks songs Hr _ [IH1 IH2]]; [done|].
  destruct Hr as (l1 & l2 & l3 & l4 & l5 & -> & Hall & _).
  split; [by apply Forall_app|]. simpl in *. lia.
Qed.



End FileMore.

(** ** The corpus of the word cloud *)

Module WordsFacts.
Import Py Parser Words LyricsFacts.

Definition space : codepoint := 0x20.

(** Words written one after the other, a blank before each. *)
Definition spaced (toks : list str) : str := toks ≫= cons space.

(** The words [add_words] keeps of some lyrics. *)
Definition tokens (lyrics : str) : list str :=
  filter (fun w => w ∉ forbidden_words) (map clean (split_whitespace lyrics)).

Definition solid (t : str) : Prop := Forall (fun c => isspace c = false) t.

Lemma split_runs_solid t : ∀ word s,
  solid t → split_runs (t ++ s) word = split_runs s (rev t ++ word).
Proof.
  induction t as [|c t IH]; intros word s Ht; [done|].
  apply Forall_cons in Ht as [Hc Ht]. simpl. rewrite Hc, IH by done.
  by rewrite <- app_assoc.
Qed.

Lemma split_runs_spaced toks : ∀ word,
  Forall (fun t => t ≠ [] ∧ solid t) toks →
  split_runs (spaced toks) word
  = match word with [] => [] | _ :: _ => [rev word] end ++ toks.
Proof.
  unfold spaced. induction toks as [|t toks IH]; intros word Htoks.
  - simpl. destruct word; by rewrite ?app_nil_r.
  - apply Forall_cons in Htoks as [[Hne Ht] Htoks].
    rewrite bind_cons. simpl.
    rewrite split_runs_solid, app_nil_r, IH by done.
    assert (rev t ≠ []) as Hrev.
    { intros H. apply (f_equal (@rev _)) in H. by rewrite rev_involutive in H. }
    destruct (rev t) as [|c r] eqn:E; [done|]. rewrite <- E, rev_involutive.
    by destruct word.
Qed.

(** [text.split()] gives back the words written. *)
Lemma split_spaced toks :
  Forall (fun t => t ≠ [] ∧ solid t) toks → split_whitespace (spaced toks) = toks.
Proof. intros H. unfold split_whitespace. by rewrite split_runs_spaced. Qed.

Lemma add_words_spaced text lyrics :
  add_words text lyrics = text ++ spaced (tokens lyrics).
Proof.
  unfold add_words, tokens, spaced. revert text.
  induction (split_whitespace lyrics) as [|w ws IH]; intros text.
  - simpl. by rewrite app_nil_r.
  - cbn [fold_left map]. rewrite IH, filter_cons.
    destruct (decide (clean w ∈ forbidden_words)) as [Hin|Hout].
    + by rewrite decide_False by (by intros ?).
    + rewrite decide_True by done. rewrite bind_cons. by rewrite <- app_assoc.
Qed.

Lemma fold_add_words lyricses : ∀ text,
  fold_left add_words lyricses text = text ++ spaced (lyricses ≫= tokens).
Proof.
  unfold spaced. induction lyricses as [|l ls IH]; intros text.
  - simpl. by rewrite app_nil_r.
  - cbn [fold_left]. rewrite IH, add_words_spaced, bind_cons, bind_app.
    unfold spaced. by rewrite <- app_assoc.
Qed.

Lemma isword_below c : isword c = true → (c < 0x180)%N.
Proof.
  unfold isword, isalnum, in_ranges, in_range. cbn [existsb fst snd].
  rewrite !orb_true_iff, !andb_true_iff, !N.leb_le, !N.eqb_eq. lia.
Qed.

Lemma word_table_ok :
  forallb (fun c => implb (isword c) (forallb (fun c' => negb (isspace c')) (lower_cp c)))
          (map N.of_nat (seq 0 0x180)) = true.
Proof. vm_compute. reflexivity. Qed.

(** The lowercase form of a word character holds no white space. *)
Lemma lower_cp_solid c : isword c = true → solid (lower_cp c).
Proof.
  intros Hw. pose proof (isword_below c Hw) as Hlt.
  pose proof word_table_ok as Ht. rewrite forallb_forall in Ht.
  specialize (Ht c). rewrite Hw in Ht. simpl in Ht.
  assert (In c (map N.of_nat (seq 0 384))) as Hin.
  { apply in_map_iff. exists (N.to_nat c). split; [lia|]. apply in_seq. lia. }
  specialize (Ht Hin). rewrite forallb_forall in Ht.
  apply Forall_forall. intros c' Hc'. apply negb_true_iff, Ht.
  by apply list_elem_of_In.
Qed.

Lemma clean_solid w : solid (clean w).
Proof.
  unfold clean, lower, solid.
  induction w as [|c w IH]; [done|]. rewrite filter_cons.
  destruct (decide (isword c = true)) as [Hc|Hc]; [|done].
  simpl. apply Forall_app. split; [by apply lower_cp_solid|done].
Qed.

Lemma empty_forbidden : [] ∈ forbidden_words.
Proof. apply (bool_decide_unpack _). vm_compute. exact I. Qed.

(** A word of the corpus. *)
Definition kept_word (t : str) : Prop :=
  (t ∉ forbidden_words) ∧ t ≠ [] ∧ solid t.

Lemma tokens_kept lyrics : Forall kept_word (tokens lyrics).
Proof.
  apply Forall_forall. intros t Ht. unfold tokens in Ht.
  apply list_elem_of_filter in Ht as [Hout Ht].
  apply list_elem_of_fmap in Ht as (w & -> & _).
  repeat split; [done| |apply clean_solid].
  intros H. rewrite H in Hout. apply Hout, empty_forbidden.
Qed.

(** The lyrics that the successive calls of [get_lyrics] return, and the
    world they leave. *)
Fixpoint lyrics_run (songs : list Song.t) (genius : lyricsgenius) (w : world)
  : list str * world :=
  match songs with
  | [] => ([], w)
  | song :: songs' =>
      match get_lyrics song genius w with
      | (Ok text, w1) =>
          let '(texts, w') := lyrics_run songs' genius w1 in (text :: texts, w')
      | (Raise _, w1) => ([], w1)
      end
  end.

(** One call, whatever the provider does. *)
Lemma get_lyrics_step song genius w :
  ∃ text cache evs,
    get_lyrics song genius w = (Ok text, World (Some cache) (trace w ++ evs))
    ∧ (∀ f t, files w !! f = Some t → cache !! f = Some t)
    ∧ length (filter is_search evs) ≤ 1
    ∧ (∀ t, files w !! cache_fname song = Some t →
         text = t ∧ cache = files w
         ∧ filter is_search evs = [] ∧ filter is_sleep evs = [])
    ∧ ((∃ found, genius (Song.title song) (Song.artist song) = Returns (Some found)) →
       cache !! cache_fname song = Some text).
Proof.
  destruct (files w !! cache_fname song) as [t|] eqn:Hfile.
  - eexists _, _, _. split; [by apply get_lyrics_hit|].
    split; [done|]. split; [simpl; lia|]. split; [|done].
    by intros t' [= <-].
  - destruct (genius (Song.title song) (Song.artist song)) as [[found|]|e] eqn:Hg.
    + eexists _, _, _. split; [by apply get_lyrics_found|].
      split; [|split; [simpl; lia|split; [done|]]].
      * intros f t Hf. rewrite lookup_insert_ne; [done|]. intros <-. congruence.
      * intros _. apply lookup_insert_eq.
    + eexists _, _, _. split; [by apply get_lyrics_no_match|].
      split; [done|]. split; [simpl; lia|]. split; [done|]. by intros [found [=]].
    + eexists _, _, _. split; [by apply get_lyrics_raises|].
      split; [done|]. split; [simpl; lia|]. split; [done|]. by intros [found [=]].
Qed.

Lemma corpus_run songs genius : ∀ text w,
  corpus songs genius text w
  = (Ok (fold_left add_words (lyrics_run songs genius w).1 text),
     (lyrics_run songs genius w).2).
Proof.
  induction songs as [|song songs IH]; intros text w; [done|].
  simpl. unfold mbind.
  destruct (get_lyrics_step song genius w) as (t & cache & evs & -> & _).
  rewrite IH. by destruct (lyrics_run songs genius _).
Qed.

Lemma lyrics_run_calls songs genius : ∀ w,
  ∃ cache evs,
    (lyrics_run songs genius w).2 = World cache (trace w ++ evs)
    ∧ length (filter is_search evs) ≤ length songs
    ∧ length (lyrics_run songs genius w).1 = length songs.
Proof.
  induction songs as [|song songs IH]; intros w.
  - exists (lyrics_cache w), []. rewrite app_nil_r. by destruct w.
  - simpl. destruct (get_lyrics_step song genius w) as (t & cache & evs & -> & _ & Hc & _).
    destruct (IH (World (Some cache) (trace w ++ evs))) as (cache' & evs' & H1 & H2 & H3).
    destruct (lyrics_run songs genius _) as [texts w']. simpl in *.
    exists cache', (evs ++ evs'). rewrite H1, app_assoc, filter_app, length_app.
    repeat split; [lia|by rewrite H3].
Qed.


Lemma lyrics_run_cached songs genius : ∀ w,
  (∀ s, s ∈ songs →
        ∃ found, genius (Song.title s) (Song.artist s) = Returns (Some found)) →
  Forall2 (fun s t => files (lyrics_run songs genius w).2 !! cache_fname s = Some t)
          songs (lyrics_run songs genius w).1
  ∧ (∀ f t, files w !! f = Some t → files (lyrics_run songs genius w).2 !! f = Some t).
Proof.
  induction songs as [|song songs IH]; intros w Hfound; [by split; [constructor|]|].
  simpl.
  destruct (get_lyrics_step song genius w) as (t & cache & evs & -> & Hkeep & _ & _ & Hnew).
  destruct (IH (World (Some cache) (trace w ++ evs))) as [H1 H2];
    [intros s Hs; apply Hfound; by right|].
  destruct (lyrics_run songs genius _) as [texts w'] eqn:Hrun. simpl in *.
  split.
  - constructor; [|done]. apply H2. rewrite files_World. apply Hnew, Hfound. left.
  - intros f t' Hf. apply H2. rewrite files_World. by apply Hkeep.
Qed.

Lemma lyrics_run_hits songs genius : ∀ texts w,
  Forall2 (fun s t => files w !! cache_fname s = Some t) songs texts →
  ∃ w' evs,
    lyrics_run songs genius w = (texts, w')
    ∧ files w' = files w ∧ trace w' = trace w ++ evs
    ∧ filter is_search evs = [] ∧ filter is_sleep evs = [].
Proof.
  induction songs as [|song songs IH]; intros texts w H.
  - apply Forall2_nil_inv_l in H as ->. exists w, []. by rewrite app_nil_r.
  - apply Forall2_cons_inv_l in H as (t & texts' & Ht & H & ->). simpl.
    destruct (get_lyrics_step song genius w)
      as (t' & cache & evs & -> & _ & _ & Hhit & _).
    destruct (Hhit t Ht) as (-> & -> & Hs1 & Hs2).
    destruct (IH texts' (World (Some (files w)) (trace w ++ evs)))
      as (w' & evs' & -> & Hfiles & Htrace & Hs1' & Hs2'); [by rewrite files_World|].
    exists w', (evs ++ evs'). rewrite Hfiles, Htrace, files_World. simpl.
    by rewrite <- app_assoc, !filter_app, Hs1, Hs2, Hs1', Hs2'.
Qed.



(** "up" is a forbidden word too. *)
Example the_sun_is_up : add_words [] (lit "The Sun Is Up") = lit " sun".
Proof. vm_compute. reflexivity. Qed.

End WordsFacts.

(** ** The catalog adapter *)

Module SpotifyFacts.
Import Py Spotify.

(** The songs of a list of items, when each converts. *)
Fixpoint songs_of (tracks : list track) : result (list Song.t) :=
  match tracks with
  | [] => Ok []
  | t :: tracks' =>
      bind (song_of_track t) (fun song =>
      bind (songs_of tracks') (fun songs => Ok (song :: songs)))
  end.

Lemma add_items_songs_of items : ∀ songs,
  add_items songs items = bind (songs_of items) (fun new => Ok (songs ++ new)).
Proof.
  induction items as [|t items IH]; intros songs; simpl.
  - by rewrite app_nil_r.
  - destruct (song_of_track t) as [song|e]; simpl; [|done].
    rewrite IH. destruct (songs_of items) as [new|e]; simpl; [|done].
    by rewrite <- app_assoc.
Qed.

Lemma songs_of_app l1 l2 songs :
  songs_of (l1 ++ l2) = Ok songs →
  ∃ s1 s2, songs_of l1 = Ok s1 ∧ songs_of l2 = Ok s2 ∧ songs = s1 ++ s2.
Proof.
  revert songs. induction l1 as [|t l1 IH]; intros songs; simpl.
  - intros H. by exists [], songs.
  - destruct (song_of_track t) as [song|e]; simpl; [|done].
    destruct (songs_of (l1 ++ l2)) as [rest|e] eqn:E; simpl; [|done].
    intros [= <-]. destruct (IH rest eq_refl) as (s1 & s2 & -> & -> & ->).
    by exists (song :: s1), s2.
Qed.

(** A client that serves a playlist of [tracks], a hundred items a page. *)
Definition serves (sp : spotipy) (url : str) (tracks : list track) : Prop :=
  ∀ offset,
    sp url offset
    = Ok (Page (take 100 (drop offset tracks)) (Z.of_nat (length tracks))).

Lemma pages_serves sp url tag tracks :
  serves sp url tracks →
  ∀ fuel offset songs rest,
    songs_of (drop offset tracks) = Ok rest →
    offset ≤ length tracks →
    0 < fuel → length tracks - offset ≤ 100 * fuel →
    pages sp url tag fuel offset songs
    = Some (Ok (Playlist.Playlist (songs ++ rest) None)).
Proof.
  intros Hsp. induction fuel as [|fuel IH]; intros offset songs rest Hrest Hoff Hpos Hfuel;
    [lia|].
  simpl. rewrite Hsp. cbn [items total].
  rewrite <- (take_drop 100 (drop offset tracks)) in Hrest.
  apply songs_of_app in Hrest as (s1 & s2 & H1 & H2 & ->).
  rewrite add_items_songs_of, H1. simpl.
  rewrite length_take, length_drop.
  destruct (Z.leb_spec (Z.of_nat (length tracks))
              (Z.of_nat (offset + 100 `min` (length tracks - offset)))) as [Hend|Hmore].
  - assert (drop 100 (drop offset tracks) = []) as Hnil
      by (apply drop_ge; rewrite length_drop; lia).
    rewrite Hnil in H2. injection H2 as <-. by rewrite app_nil_r.
  - assert (100 `min` (length tracks - offset) = 100) as -> by lia.
    rewrite drop_drop in H2.
    rewrite (IH (offset + 100) (songs ++ s1) s2); [by rewrite <- app_assoc|done|lia..].
Qed.


(** The loop has no guard against a page that brings nothing: when a page
    is empty while the total says that items are left, the same request is
    sent again, and the adapter returns after no number of turns. *)
Theorem parse_spotify_url_stalls sp url tag n fuel :
  contains url playlist_link = true →
  sp url 0 = Ok (Page [] n) → (0 < n)%Z →
  parse_spotify_url sp url tag fuel = None.
Proof.
  intros Hurl Hsp Hn. unfold parse_spotify_url. rewrite Hurl.
  induction fuel as [|fuel IH]; [done|].
  simpl. rewrite Hsp. simpl.
  change (Z.of_nat 0) with 0%Z.
  destruct (Z.leb_spec n 0) as [?|_]; [lia|apply IH].
Qed.

(** All or nothing: when the client raises on the request for page [k],
    after [k] full pages, the adapter raises the same exception and returns
    no playlist. *)
Theorem parse_spotify_url_raises sp url tag tracks songs k e fuel :
  contains url playlist_link = true →
  (∀ j, j < k →
     sp url (100 * j)
     = Ok (Page (take 100 (drop (100 * j) tracks)) (Z.of_nat (length tracks)))) →
  100 * k < length tracks →
  songs_of (take (100 * k) tracks) = Ok songs →
  sp url (100 * k) = Raise e →
  k < fuel →
  parse_spotify_url sp url tag fuel = Some (Raise e).
Proof.
  intros Hurl Hsp Hk Hsongs He Hfuel. unfold parse_spotify_url. rewrite Hurl.
  assert (∀ d j fuel acc,
            j + d = k → d < fuel →
            pages sp url tag fuel (100 * j) acc = Some (Raise e)) as Hloop.
  { induction d as [|d IH]; intros j fuel' acc Hj Hf.
    - destruct fuel' as [|fuel']; [lia|]. cbn [pages].
      replace j with k by lia. by rewrite He.
    - destruct fuel' as [|fuel']; [lia|]. cbn [pages].
      rewrite Hsp by lia. cbn [items total].
      destruct (songs_of (take 100 (drop (100 * j) tracks))) as [s1|e1] eqn:E1.
      + rewrite add_items_songs_of, E1. cbn [bind].
        rewrite length_take, length_drop.
        assert (100 `min` (length tracks - 100 * j) = 100) as -> by lia.
        destruct (Z.leb_spec (Z.of_nat (length tracks)) (Z.of_nat (100 * j + 100)));
          [lia|].
        replace (100 * j + 100) with (100 * S j) by lia.
        apply IH; lia.
      + exfalso.
        replace (100 * k) with ((100 * j + 100) + (100 * k - (100 * j + 100)))
          in Hsongs by lia.
        rewrite <- !take_take_drop in Hsongs.
        apply songs_of_app in Hsongs as (s12 & _ & H12 & _).
        apply songs_of_app in H12 as (_ & s2 & _ & H2 & _).
        congruence. }
  apply (Hloop k 0 fuel []); [lia|done].
Qed.

(** Test doubles: a catalog of [tracks]; one that reports five items and
    brings none; one that fails from the second page on. *)
Definition catalog (tracks : list track) : spotipy :=
  fun _ offset =>
    Ok (Page (take 100 (drop offset tracks)) (Z.of_nat (length tracks))).

Definition empty_pages : spotipy := fun _ _ => Ok (Page [] 5).

Definition one_page_then_error (tracks : list track) : spotipy :=
  fun url offset =>
    if offset <? 100 then catalog tracks url offset
    else Raise (Exception (lit "http status: 429")).

Definition classics_url : str :=
  lit "https://open.spotify.com/playlist/0mxwuRxFnP7cedz2iWtdgE?si=98bdcca0d5cb4357".

Definition let_it_be : track :=
  Track (lit "Let It Be") [lit "The Beatles"; lit "Billy Preston"] (lit "Let It Be") 243026.

Definition let_it_be_song : Song.t :=
  Song.Song (lit "Let It Be") (lit "The Beatles, Billy Preston") (lit "Let It Be") 243.


Lemma parse_spotify_url_stalls_witness :
  parse_spotify_url empty_pages classics_url (lit "Ryan") 1000 = None.
Proof.
  apply (parse_spotify_url_stalls empty_pages classics_url (lit "Ryan") 5 1000).
  - vm_compute. reflexivity.
  - reflexivity.
  - lia.
Defined.

Lemma parse_spotify_url_raises_witness :
  parse_spotify_url (one_page_then_error (replicate 150 let_it_be)) classics_url
                    (lit "Ryan") 2
  = Some (Raise (Exception (lit "http status: 429"))).
Proof.
  apply (parse_spotify_url_raises (one_page_then_error (replicate 150 let_it_be))
           classics_url (lit "Ryan") (replicate 150 let_it_be)
           (replicate 100 let_it_be_song) 1).
  - vm_compute. reflexivity.
  - intros j Hj. assert (j = 0) as -> by lia. reflexivity.
  - rewrite length_replicate. lia.
  - vm_compute. reflexivity.
  - reflexivity.
  - lia.
Defined.

End SpotifyFacts.

(** ** The artist chart *)

Module ArtistFacts.
Import Py ArtistChart.

Section dict.
Context {K V : Type} `{EqDecision K}.
Implicit Types (d : list (K * V)) (k : K) (v : V).

Lemma dict_get_set k v d k' :
  dict_get k' (dict_set k v d) = if decide (k' = k) then Some v else dict_get k' d.
Proof.
  induction d as [|[k0 v0] d IH]; simpl.
  - by destruct (decide (k' = k)).
  - destruct (decide (k = k0)) as [->|Hne]; simpl.
    + by destruct (decide (k' = k0)).
    + rewrite IH. destruct (decide (k' = k0)) as [->|?]; [|done].
      by rewrite decide_False by done.
Qed.

Lemma dict_get_None k d : dict_get k d = None ↔ k ∉ map fst d.
Proof.
  induction d as [|[k0 v0] d IH]; simpl.
  - split; [intros _; apply not_elem_of_nil|done].
  - rewrite not_elem_of_cons. destruct (decide (k = k0)); [|tauto].
    split; [done|by intros [? _]].
Qed.

Lemma dict_get_elem k v d : dict_get k d = Some v → (k, v) ∈ d.
Proof.
  induction d as [|[k0 v0] d IH]; simpl; [done|].
  destruct (decide (k = k0)) as [->|?].
  - intros [= ->]. left.
  - intros H. right. by apply IH.
Qed.

Lemma dict_elem_get k v d : NoDup (map fst d) → (k, v) ∈ d → dict_get k d = Some v.
Proof.
  induction d as [|[k0 v0] d IH]; simpl; [by intros _ ?%elem_of_nil|].
  intros [Hk0 Hd]%NoDup_cons [[= -> ->]|Hin]%elem_of_cons.
  - by rewrite decide_True.
  - destruct (decide (k = k0)) as [->|?]; [|by apply IH].
    destruct Hk0. apply list_elem_of_fmap. by exists (k0, v).
Qed.

Lemma dict_set_keys k v d :
  map fst (dict_set k v d)
  = match dict_get k d with Some _ => map fst d | None => map fst d ++ [k] end.
Proof.
  induction d as [|[k0 v0] d IH]; simpl; [done|].
  destruct (decide (k = k0)) as [->|?]; simpl; [done|].
  rewrite IH. by destruct (dict_get k d).
Qed.

Lemma dict_set_NoDup k v d : NoDup (map fst d) → NoDup (map fst (dict_set k v d)).
Proof.
  intros H. rewrite dict_set_keys. destruct (dict_get k d) eqn:E; [done|].
  apply NoDup_app. split; [done|]. split; [|apply NoDup_singleton].
  intros k' Hk' ->%list_elem_of_singleton. by apply dict_get_None in E.
Qed.

Lemma dict_set_Forall (P : K * V → Prop) k v d :
  Forall P d → P (k, v) → Forall P (dict_set k v d).
Proof.
  intros Hd Hkv. induction Hd as [|[k0 v0] d H0 Hd IH]; simpl.
  - by constructor.
  - destruct (decide (k = k0)); by constructor.
Qed.

Lemma dict_set_total (h : K * V → nat) k v d :
  sum_list (map h (dict_set k v d))
  + from_option (fun old => h (k, old)) 0 (dict_get k d)
  = sum_list (map h d) + h (k, v).
Proof.
  induction d as [|[k0 v0] d IH]; simpl; [lia|].
  destruct (decide (k = k0)) as [->|?]; simpl; lia.
Qed.

Lemma dict_set_nonempty k v d : dict_set k v d ≠ [].
Proof. destruct d as [|[k0 v0] d]; simpl; [done|]. by destruct (decide (k = k0)). Qed.
End dict.

Section sorted.
Context {A : Type} (leb : A → A → bool).
Hypothesis leb_total : ∀ x y, leb x y = false → leb y x = true.

Lemma insert_Permutation x l : insert leb x l ≡ₚ x :: l.
Proof.
  induction l as [|y l IH]; simpl; [done|].
  destruct (leb x y); [done|]. by rewrite IH, Permutation_swap.
Qed.

Lemma sorted_Permutation l : sorted leb l ≡ₚ l.
Proof.
  unfold sorted. induction l as [|x l IH]; simpl; [done|].
  by rewrite insert_Permutation, IH.
Qed.

Lemma insert_Sorted x l :
  Sorted (fun a b => leb a b = true) l →
  Sorted (fun a b => leb a b = true) (insert leb x l).
Proof.
  induction 1 as [|y l Hl IH Hy]; simpl; [by repeat constructor|].
  destruct (leb x y) eqn:E.
  - constructor; [by constructor|by constructor].
  - constructor; [done|].
    destruct l as [|z l]; simpl.
    + constructor. by apply leb_total.
    + destruct (leb x z); constructor; [by apply leb_total|by inversion Hy].
Qed.

Lemma sorted_Sorted l : Sorted (fun a b => leb a b = true) (sorted leb l).
Proof.
  unfold sorted. induction l as [|x l IH]; simpl; [constructor|by apply insert_Sorted].
Qed.

Lemma insert_total (h : A → nat) x l :
  sum_list (map h (insert leb x l)) = h x + sum_list (map h l).
Proof.
  induction l as [|y l IH]; simpl; [done|].
  destruct (leb x y); simpl; lia.
Qed.

Lemma sorted_total (h : A → nat) l :
  sum_list (map h (sorted leb l)) = sum_list (map h l).
Proof.
  unfold sorted. induction l as [|x l IH]; simpl; [done|]. by rewrite insert_total, IH.
Qed.
End sorted.

Lemma insert_ext {A} (leb1 leb2 : A → A → bool) x l :
  (∀ x y, leb1 x y = leb2 x y) → insert leb1 x l = insert leb2 x l.
Proof.
  intros H. induction l as [|y l IH]; simpl; [done|]. by rewrite H, IH.
Qed.

Lemma sorted_ext {A} (leb1 leb2 : A → A → bool) l :
  (∀ x y, leb1 x y = leb2 x y) → sorted leb1 l = sorted leb2 l.
Proof.
  intros H. unfold sorted. induction l as [|x l IH]; simpl; [done|].
  by rewrite IH, (insert_ext leb1 leb2).
Qed.

Lemma Sorted_map {A B} (R : A → A → Prop) (S : B → B → Prop) (f : A → B) l :
  (∀ x y, R x y → S (f x) (f y)) → Sorted R l → Sorted S (map f l).
Proof.
  intros H. induction 1 as [|x l Hl IH Hx]; simpl; constructor; [done|].
  destruct Hx; simpl; constructor. by apply H.
Qed.

(** The songs of one artist, in playlist order, and their number. *)
Definition by_artist (songs : list Song.t) (a : str) : list Song.t :=
  filter (fun s => Song.artist s = a) songs.

Definition count (songs : list Song.t) (a : str) : nat := length (by_artist songs a).

Definition group_size : str * list Song.t → nat := fun '(_, j) => length j.

Definition nonempty (l : list Song.t) : option (list Song.t) :=
  match l with [] => None | _ :: _ => Some l end.

(** [songs_by_artist] after the songs [pre]: each artist once, with the
    songs of the artist. *)
Definition grouped (d : list (str * list Song.t)) (pre : list Song.t) : Prop :=
  NoDup (map fst d)
  ∧ (∀ a, dict_get a d = nonempty (by_artist pre a))
  ∧ sum_list (map group_size d) = length pre.

Lemma by_artist_snoc pre s a :
  by_artist (pre ++ [s]) a
  = by_artist pre a ++ if decide (Song.artist s = a) then [s] else [].
Proof.
  unfold by_artist. rewrite filter_app, filter_cons, filter_nil.
  by destruct (decide (Song.artist s = a)).
Qed.

Lemma default_nonempty l : default [] (nonempty l) = l.
Proof. by destruct l. Qed.

Lemma grouped_step d pre s :
  grouped d pre →
  grouped (dict_set (Song.artist s) (default [] (dict_get (Song.artist s) d) ++ [s]) d)
          (pre ++ [s]).
Proof.
  intros (Hnd & Hget & Hsum). split; [by apply dict_set_NoDup|]. split.
  - intros a. rewrite dict_get_set, by_artist_snoc.
    destruct (decide (a = Song.artist s)) as [->|Hne].
    + rewrite decide_True by done. rewrite Hget, default_nonempty.
      by destruct (by_artist pre (Song.artist s)).
    + rewrite decide_False by done. by rewrite app_nil_r.
  - pose proof (dict_set_total group_size (Song.artist s)
                  (default [] (dict_get (Song.artist s) d) ++ [s]) d) as Ht.
    rewrite length_app. cbn [length].
    destruct (dict_get (Song.artist s) d) as [l|];
      cbn [from_option default group_size] in *; unfold id in *;
      rewrite length_app in Ht; cbn [length] in Ht; lia.
Qed.

Lemma songs_by_artist_grouped songs : grouped (songs_by_artist songs) songs.
Proof.
  unfold songs_by_artist.
  assert (∀ d pre, grouped d pre →
            grouped (fold_left
                       (fun d s =>
                          dict_set (Song.artist s)
                                   (default [] (dict_get (Song.artist s) d) ++ [s]) d)
                       songs d) (pre ++ songs)) as H.
  { induction songs as [|s songs IH]; intros d pre Hd; simpl.
    - by rewrite app_nil_r.
    - replace (pre ++ s :: songs) with ((pre ++ [s]) ++ songs)
        by (by rewrite <- app_assoc).
      apply IH. by apply grouped_step. }
  apply (H [] []). split; [constructor|]. by split.
Qed.

(** The artists of a playlist. *)
Definition artists_of (songs : list Song.t) : list str :=
  remove_dups (map Song.artist songs).

Lemma nonempty_elem songs a :
  is_Some (nonempty (by_artist songs a)) ↔ a ∈ map Song.artist songs.
Proof.
  unfold by_artist. rewrite list_elem_of_fmap. split.
  - intros [l Hl]. destruct (filter _ songs) as [|s l'] eqn:E; [done|].
    assert (s ∈ filter (fun s => Song.artist s = a) songs) as Hs by (rewrite E; left).
    apply list_elem_of_filter in Hs as [? ?]. by exists s.
  - intros (s & -> & Hs).
    assert (s ∈ filter (fun s' => Song.artist s' = Song.artist s) songs) as Hin
      by by apply list_elem_of_filter.
    destruct (filter _ songs); [by apply elem_of_nil in Hin|by eexists].
Qed.

Lemma grouped_keys d songs : grouped d songs → map fst d ≡ₚ artists_of songs.
Proof.
  intros (Hnd & Hget & _). apply NoDup_Permutation; [done|apply NoDup_remove_dups|].
  intros a. unfold artists_of. rewrite elem_of_remove_dups, <- nonempty_elem, <- Hget.
  destruct (dict_get a d) eqn:E.
  - split; [by eexists|]. intros _. apply dict_get_elem in E.
    apply list_elem_of_fmap. by exists (a, l).
  - apply dict_get_None in E. split; [done|by intros [? ?]].
Qed.

Lemma grouped_sizes d songs :
  grouped d songs → map group_size d = map (count songs) (map fst d).
Proof.
  intros (Hnd & Hget & _). rewrite map_map. apply map_ext_in.
  intros [a l] Hin%list_elem_of_In. apply dict_elem_get in Hin; [|done].
  rewrite Hget in Hin. unfold count. simpl.
  destruct (by_artist songs a); [done|]. by injection Hin as <-.
Qed.

Lemma grouped_counts_get d songs a :
  grouped d songs →
  default 0 (dict_get a (map (fun '(artist, lst) => (artist, length lst)) d))
  = count songs a.
Proof.
  intros (_ & Hget & _).
  assert (dict_get a (map (fun '(artist, lst) => (artist, length lst)) d)
          = length <$> dict_get a d) as ->.
  { clear Hget. induction d as [|[a0 l0] d IH]; simpl; [done|].
    by destruct (decide (a = a0)). }
  rewrite Hget. unfold count. by destruct (by_artist songs a).
Qed.

Lemma counts_keys (d : list (str * list Song.t)) :
  map fst (map (fun '(artist, lst) => (artist, length lst)) d) = map fst d.
Proof. rewrite map_map. apply map_ext. by intros [? ?]. Qed.

Lemma counts_values (d : list (str * list Song.t)) :
  map snd (map (fun '(artist, lst) => (artist, length lst)) d) = map group_size d.
Proof. rewrite map_map. apply map_ext. by intros [? ?]. Qed.

(** The chart by artist.  The call does not raise (the [assert] holds);
    the labels are the artists of the playlist, each once; the height of a
    bar is the number of songs of its artist; the heights go up from left
    to right and add up to the number of songs. *)
Theorem artist_chart_by_artist (self : Playlist.t) :
  ∃ artists_sorted freqs_sorted,
    artist_frequency_dist self true
    = Ok (BarByArtist artists_sorted freqs_sorted,
          tag_prefix (Playlist.tag self) ++ lit "artist_frequency_bar.png")
    ∧ artists_sorted ≡ₚ artists_of (Playlist.songs self)
    ∧ freqs_sorted = map (count (Playlist.songs self)) artists_sorted
    ∧ Sorted le freqs_sorted
    ∧ sum_list freqs_sorted = Playlist.__len__ self.
Proof.
  pose proof (songs_by_artist_grouped (Playlist.songs self)) as Hg.
  unfold artist_frequency_dist.
  set (d := songs_by_artist (Playlist.songs self)) in *.
  assert (sum_list (map (fun '(_, j) => length j) d) = length (Playlist.songs self))
    as Hsum by apply Hg.
  rewrite Hsum, Nat.eqb_refl. cbn [negb]. rewrite counts_keys.
  set (leb := fun a b => count (Playlist.songs self) a <=? count (Playlist.songs self) b).
  rewrite (sorted_ext _ leb)
    by (intros x y; by rewrite !(grouped_counts_get d _ _ Hg)).
  eexists _, _. split; [reflexivity|].
  split; [by rewrite sorted_Permutation, (grouped_keys d _ Hg)|].
  split; [apply map_ext; intros a; by apply grouped_counts_get|].
  rewrite (map_ext _ (count (Playlist.songs self)))
    by (intros a; by apply grouped_counts_get).
  split.
  - eapply Sorted_map; [|apply sorted_Sorted].
    + intros x y Hxy. by apply Nat.leb_le.
    + intros x y Hxy. unfold leb in *. apply Nat.leb_le. apply Nat.leb_gt in Hxy. lia.
  - rewrite sorted_total, <- (grouped_sizes d _ Hg). apply Hg.
Qed.

(** [Counter] after the values [pre]: each value once, with the number of
    its occurrences. *)
Definition occurrences (pre : list nat) (v : nat) : nat :=
  length (filter (fun v' => v' = v) pre).

Definition counted (c : list (nat * nat)) (pre : list nat) : Prop :=
  NoDup (map fst c)
  ∧ (∀ v, default 0 (dict_get v c) = occurrences pre v)
  ∧ Forall (fun p => 0 < p.2) c
  ∧ sum_list (map (fun p => p.1 * p.2) c) = sum_list pre.

Lemma sum_list_snoc l v : sum_list (l ++ [v]) = sum_list l + v.
Proof. induction l as [|x l IH]; simpl; lia. Qed.

Lemma counted_step c pre v :
  counted c pre →
  counted (dict_set v (default 0 (dict_get v c) + 1) c) (pre ++ [v]).
Proof.
  intros (Hnd & Hget & Hpos & Hsum). split; [by apply dict_set_NoDup|].
  split; [|split].
  - intros v'. rewrite dict_get_set. unfold occurrences in *.
    rewrite filter_app, length_app, filter_cons, filter_nil.
    destruct (decide (v' = v)) as [->|Hne].
    + rewrite decide_True by done. simpl. by rewrite Hget.
    + rewrite decide_False by done. simpl. rewrite Hget. lia.
  - apply dict_set_Forall; [done|]. simpl. lia.
  - pose proof (dict_set_total (fun p => p.1 * p.2) v
                  (default 0 (dict_get v c) + 1) c) as Ht.
    rewrite sum_list_snoc. cbn [fst snd] in Ht.
    rewrite Nat.mul_add_distr_l, Nat.mul_1_r in Ht.
    destruct (dict_get v c) as [old|]; cbn [from_option default] in *;
      unfold id in *; lia.
Qed.

Lemma Counter_counted values : counted (Counter values) values.
Proof.
  unfold Counter.
  assert (∀ c pre, counted c pre →
            counted (fold_left
                       (fun d v => dict_set v (default 0 (dict_get v d) + 1) d)
                       values c) (pre ++ values)) as H.
  { induction values as [|v values IH]; intros c pre Hc; simpl.
    - by rewrite app_nil_r.
    - replace (pre ++ v :: values) with ((pre ++ [v]) ++ values)
        by (by rewrite <- app_assoc).
      apply IH. by apply counted_step. }
  apply (H [] []). split; [constructor|]. split; [done|]. by split.
Qed.

Lemma pair_leb_total p q : pair_leb p q = false → pair_leb q p = true.
Proof.
  unfold pair_leb. rewrite orb_false_iff, andb_false_iff, orb_true_iff, andb_true_iff.
  rewrite !Nat.ltb_ge, !Nat.ltb_lt, !Nat.eqb_neq, !Nat.eqb_eq, Nat.leb_gt, Nat.leb_le.
  lia.
Qed.

Lemma zip_with_mul (items : list (nat * nat)) :
  zip_with Nat.mul (map fst items) (map snd items) = map (fun p => p.1 * p.2) items.
Proof. induction items as [|[x y] items IH]; simpl; [done|]. by rewrite IH. Qed.

(** The number of artists with [n] songs. *)
Definition artists_with (songs : list Song.t) (n : nat) : nat :=
  length (filter (fun a => count songs a = n) (artists_of songs)).

Lemma occurrences_map (f : str → nat) (l : list str) n :
  occurrences (map f l) n = length (filter (fun a => f a = n) l).
Proof.
  unfold occurrences. induction l as [|a l IH]; simpl; [done|].
  rewrite !filter_cons. destruct (decide (f a = n)); simpl; by rewrite IH.
Qed.

(** The chart of the frequencies.  On an empty playlist the call raises
    [ValueError], when [x, y] are unpacked from no item.  On any other
    there is one bar for each number of songs that some artist has, in
    increasing order, as high as the number of artists with that many
    songs, and the numbers times the heights add up to the number of
    songs. *)
Theorem artist_frequency_hist (self : Playlist.t) :
  (Playlist.songs self = [] →
   ∃ message values,
     artist_frequency_dist self false = Raise (ValueError message values))
  ∧ (Playlist.songs self ≠ [] →
     ∃ x y,
       artist_frequency_dist self false
       = Ok (BarByFrequency x y,
             tag_prefix (Playlist.tag self) ++ lit "artist_frequency_dist.png")
       ∧ x ≠ [] ∧ Sorted le x ∧ NoDup x
       ∧ Forall2 (fun n m => 0 < m ∧ m = artists_with (Playlist.songs self) n) x y
       ∧ sum_list (zip_with Nat.mul x y) = Playlist.__len__ self).
Proof.
  split.
  - intros H. unfold artist_frequency_dist. rewrite H. eexists _, _. reflexivity.
  - intros Hne.
    pose proof (songs_by_artist_grouped (Playlist.songs self)) as Hg.
    unfold artist_frequency_dist.
    set (d := songs_by_artist (Playlist.songs self)) in *.
    assert (sum_list (map (fun '(_, j) => length j) d) = length (Playlist.songs self))
      as Hsum by apply Hg.
    rewrite Hsum, Nat.eqb_refl. cbn [negb]. rewrite counts_values.
    pose proof (Counter_counted (map group_size d)) as (Hnd & Hget & Hpos & Htot).
    set (c := Counter (map group_size d)) in *.
    pose proof (sorted_Permutation pair_leb c) as Hperm.
    assert (c ≠ []) as Hc.
    { intros Hnil. rewrite Hnil in Htot. simpl in Htot.
      fold (map group_size d) in Hsum. unfold group_size in Htot at 1.
      destruct (Playlist.songs self); [done|]. simpl in Hsum.
      unfold group_size in Htot. lia. }
    assert (∃ item items, sorted pair_leb c = item :: items) as (item & items & E).
    { destruct (sorted pair_leb c) as [|i l]; [|by eexists _, _].
      apply Permutation_nil_l in Hperm. by rewrite Hperm in Hc. }
    rewrite E. eexists _, _. split; [reflexivity|]. rewrite <- E.
    split; [|split; [|split; [|split]]].
    + by rewrite E.
    + eapply Sorted_map; [|apply sorted_Sorted, pair_leb_total].
      intros p q Hpq. unfold pair_leb in Hpq.
      apply orb_true_iff in Hpq as [H|H]; [apply Nat.ltb_lt in H; lia|].
      apply andb_true_iff in H as [H _]. apply Nat.eqb_eq in H. lia.
    + by rewrite Hperm.
    + apply Forall2_fmap, Forall_Forall2_diag, Forall_forall.
      intros [n m] Hin. rewrite Hperm in Hin. simpl.
      assert (0 < m) as Hm by (rewrite Forall_forall in Hpos; by apply (Hpos (n, m))).
      split; [done|].
      apply dict_elem_get in Hin; [|done].
      specialize (Hget n). rewrite Hin in Hget. simpl in Hget. rewrite Hget.
      rewrite (grouped_sizes d _ Hg), occurrences_map. unfold artists_with.
      by rewrite (grouped_keys d _ Hg).
    + rewrite zip_with_mul, sorted_total, Htot. apply Hg.
Qed.

Definition three_songs : Playlist.t :=
  Playlist.__init__
    [Song.Song (lit "Hey Jude") (lit "The Beatles") (lit "1") 431;
     Song.Song (lit "Imagine") (lit "John Lennon") (lit "Imagine") 183;
     Song.Song (lit "Let It Be") (lit "The Beatles") (lit "Let It Be") 243]
    (lit "Ryan").

Example three_songs_bars :
  artist_frequency_dist three_songs true
  = Ok (BarByArtist [lit "John Lennon"; lit "The Beatles"] [1; 2],
        lit "None_artist_frequency_bar.png")
  ∧ artist_frequency_dist three_songs false
    = Ok (BarByFrequency [1; 2] [1; 1], lit "None_artist_frequency_dist.png").
Proof. vm_compute. done. Qed.

Lemma artist_frequency_hist_witness :
  ∃ x y,
    artist_frequency_dist three_songs false
    = Ok (BarByFrequency x y,
          tag_prefix (Playlist.tag three_songs) ++ lit "artist_frequency_dist.png")
    ∧ x ≠ [] ∧ Sorted le x ∧ NoDup x
    ∧ Forall2 (fun n m => 0 < m ∧ m = artists_with (Playlist.songs three_songs) n) x y
    ∧ sum_list (zip_with Nat.mul x y) = Playlist.__len__ three_songs.
Proof.
  destruct (artist_frequency_hist three_songs) as [_ H]. apply H. discriminate.
Defined.

End ArtistFacts.

(** ** The table of songs *)

Module RenderFacts.
Import Py Render.

Lemma ljust_take width s : length (ljust width (take width s)) = width.
Proof.
  unfold ljust. rewrite length_app, length_replicate, length_take.
  generalize (length s). intros n. lia.
Qed.

Lemma rjust_length width s : length (rjust width s) = width `max` length s.
Proof.
  unfold rjust. rewrite length_app, length_replicate.
  change (@length codepoint s) with (@length N s). lia.
Qed.

(** The integers of a range, for a check by enumeration. *)
Fixpoint zrange (lo : Z) (n : nat) : list Z :=
  match n with
  | O => []
  | S k => lo :: zrange (lo + 1) k
  end.

Lemma elem_of_zrange d n : ∀ lo, (lo ≤ d < lo + Z.of_nat n)%Z → d ∈ zrange lo n.
Proof.
  induction n as [|n IH]; intros lo Hd; [lia|]. simpl.
  destruct (decide (d = lo)) as [->|Hne]; [left|].
  right. apply IH. lia.
Qed.

(** The integers that print in at most five characters. *)
Lemma short_numbers :
  forallb (fun d => length (str_of_int d) <=? 5) (zrange (-9999) (Z.to_nat 109999)) = true.
Proof. vm_compute. reflexivity. Qed.

Lemma str_of_int_short d :
  (-9999 ≤ d ≤ 99999)%Z → length (str_of_int d) ≤ 5.
Proof.
  intros Hd. pose proof short_numbers as H. rewrite forallb_forall in H.
  apply Nat.leb_le, H, list_elem_of_In, elem_of_zrange. lia.
Qed.

(** The line of a song is made of four columns, 40, 20 and 25 characters
    wide and then at least 5, with [" | "] between them and an [s] at the
    end; a title, artist or album that is too long is cut, a duration is
    not.  The line is 100 characters long when the duration is between
    -9999 and 99999, and every line [print_all] prints then has this
    width. *)
Theorem str_columns (self : Song.t) :
  (∃ title artist album duration,
     __str__ self
     = title ++ lit " | " ++ artist ++ lit " | " ++ album ++ lit " | "
       ++ duration ++ lit "s"
     ∧ length title = 40 ∧ take 40 (Song.title self) `prefix_of` title
     ∧ length artist = 20 ∧ take 20 (Song.artist self) `prefix_of` artist
     ∧ length album = 25 ∧ take 25 (Song.album self) `prefix_of` album
     ∧ length duration = 5 `max` length (str_of_int (Song.duration self))
     ∧ str_of_int (Song.duration self) `suffix_of` duration)
  ∧ 100 ≤ length (__str__ self)
  ∧ ((-9999 ≤ Song.duration self ≤ 99999)%Z → length (__str__ self) = 100).
Proof.
  split; [|split].
  - eexists _, _, _, _. split; [reflexivity|].
    rewrite !ljust_take, rjust_length.
    repeat split; try done; try (by eexists).
  - unfold __str__. rewrite !length_app, !ljust_take, rjust_length. simpl. lia.
  - intros Hd. apply str_of_int_short in Hd.
    unfold __str__. rewrite !length_app, !ljust_take, rjust_length. simpl. lia.
Qed.

Lemma str_columns_witness :
  length (__str__ (Song.Song (lit "Hey Jude") (lit "The Beatles") (lit "1") 431)) = 100.
Proof.
  destruct (str_columns (Song.Song (lit "Hey Jude") (lit "The Beatles") (lit "1") 431))
    as (_ & _ & H).
  apply H. simpl. lia.
Defined.

(** The table [print_all] prints is aligned when the durations have at
    most five characters: one line for each song, all of width 100. *)
Theorem print_all_aligned (self : Playlist.t) :
  Forall (fun s => (-9999 ≤ Song.duration s ≤ 99999)%Z) (Playlist.songs self) →
  length (print_all self) = Playlist.__len__ self
  ∧ Forall (fun line => length line = 100) (print_all self).
Proof.
  intros H. unfold print_all, Playlist.__len__. split; [apply length_map|].
  apply Forall_map. eapply Forall_impl; [exact H|].
  intros s Hd. simpl. apply str_of_int_short in Hd.
  unfold __str__. rewrite !length_app, !ljust_take, rjust_length. simpl. lia.
Qed.

Lemma print_all_aligned_witness :
  Forall (fun line => length line = 100)
    (print_all (Playlist.Playlist
       [Song.Song (lit "Hey Jude") (lit "The Beatles") (lit "1") 431;
        Song.Song (lit "Echoes") (lit "Pink Floyd") (lit "Meddle") 1412] None)).
Proof.
  apply print_all_aligned. repeat constructor; simpl; lia.
Defined.

End RenderFacts.
